(** * FietSAT: driver/route assignment through a SAT encoding

    A shallow embedding of [fietsat.py]: the domain model built by
    [FietSAT.parse], the propositional symbol table, the four clause groups of
    [FietSAT.formulate], the solver adapter [FietSAT.solve] and the decoder and
    printer [FietSAT.report].

    Python integers are [Z], Python strings are [string], a Python [dict] whose
    iteration order matters is an insertion-ordered association list
    ([pydict]), and the two tables of the symbol pool are [gmap]s. Methods of
    the [FietSAT] object are computations in a monad that threads the object,
    the lines printed on standard output and a possible exception. *)

From Stdlib Require Import ZArith String Ascii List Lia Sorting.Sorted Sorting.Permutation.
From Stdlib Require Import DecimalString DecimalZ DecimalPos DecimalFacts.
From stdpp Require Import gmap strings list fin_maps relations.
Import ListNotations.

Local Open Scope Z_scope.

(** ** Python built-ins used by the program *)

Module Py.

(** [str(n)] for an integer, as an f-string field [{n}] renders it. *)
Definition str (n : Z) : string := NilZero.string_of_int (Z.to_int n).

(** [int(s)] on a string: an optional sign followed by decimal digits.
  Surrounding white space and digit-group underscores, which [int] also
  accepts, cannot occur in the pieces this program passes (they come from
  splitting a name at underscores). [None] stands for [ValueError]. *)
Definition int (s : string) : option Z :=
match s with
| String "+"%char s' =>
    match s' with
    | String "-"%char _ => None
    | String "+"%char _ => None
    | _ => option_map Z.of_int (NilZero.int_of_string s')
    end
| _ => option_map Z.of_int (NilZero.int_of_string s)
end.

(** [s.split(sep)] for a one-character separator. *)
Fixpoint split (sep : ascii) (s : string) : list string :=
match s with
| EmptyString => [EmptyString]
| String c s' =>
    if Ascii.eqb c sep then EmptyString :: split sep s'
    else match split sep s' with
         | [] => [String c EmptyString]
         | w :: ws => String c w :: ws
         end
end.

(** [range(a, b)]. *)
Definition range (a b : Z) : list Z :=
map (fun i => a + Z.of_nat i) (seq 0 (Z.to_nat (b - a))).

(** [range(4, 0, -1)]. *)
Definition range_4_0 : list Z := [4; 3; 2; 1].

(** [sorted(l, key=key, reverse=True)]: a stable sort into descending key
  order; elements with equal keys keep their relative order. *)
Section Sorted.
Context {A : Type} (key : A -> Z).

Fixpoint insert_desc (x : A) (l : list A) : list A :=
match l with
| [] => [x]
| y :: l' => if key x <? key y then y :: insert_desc x l' else x :: l
end.

Fixpoint sorted_desc (l : list A) : list A :=
match l with
| [] => []
| x :: l' => insert_desc x (sorted_desc l')
end.

(** Descending key order. *)
Definition desc : A -> A -> Prop := fun a b => key b <= key a.
End Sorted.

(** An insertion-ordered [dict] with integer keys. *)
Definition pydict (V : Type) : Type := list (Z * V).

Fixpoint dict_get {V} (k : Z) (d : pydict V) : option V :=
match d with
| [] => None
| (k', v) :: d' => if Z.eqb k k' then Some v else dict_get k d'
end.

(** [d[k] = v]: an existing key keeps its position. *)
Fixpoint dict_set {V} (k : Z) (v : V) (d : pydict V) : pydict V :=
match d with
| [] => [(k, v)]
| (k', v') :: d' =>
    if Z.eqb k k' then (k', v) :: d' else (k', v') :: dict_set k v d'
end.

(** [list(d)]: the keys in insertion order. *)
Definition dict_keys {V} (d : pydict V) : list Z := map fst d.

(** [{key(x): value(x) for x in xs}]. *)
Definition dict_of {X V} (key : X -> Z) (value : X -> V) (xs : list X) : pydict V :=
fold_left (fun d x => dict_set (key x) (value x) d) xs [].

(** A string without the separator of variable names. *)
Fixpoint no_sep (s : string) : Prop :=
match s with
| EmptyString => True
| String c s' => c <> "_"%char /\ no_sep s'
end.

End Py.
Import Py.

(** ** Exceptions *)

Inductive exn : Type :=
| KeyError (k : Z)
| ValueError.

(** ** Domain model *)

Record Driver : Type := mkDriver
  { d_id : Z; d_name : string; d_exp : Z; d_routes : list Z }.

Record Route : Type := mkRoute
  { r_id : Z; r_start : string; r_end : string; r_drivers : list Z }.

(** The objects of the two JSON arrays, once loaded. *)
Record driver_obj : Type := mkDriverObj
  { jd_id : Z; jd_name : string; jd_exp : Z; jd_routes : list Z }.

Record route_obj : Type := mkRouteObj
  { jr_id : Z; jr_start : string; jr_end : string }.

(** [route.drivers.append(...)], for the elements of [l] in turn. *)
Definition extend (l : list Z) (r : Route) : Route :=
  mkRoute (r_id r) (r_start r) (r_end r) (r_drivers r ++ l).

(** [routes_info[rid].drivers.append(did)] *)
Definition append_driver (rid did : Z) (ri : pydict Route) : exn + pydict Route :=
  match dict_get rid ri with
  | None => inl (KeyError rid)
  | Some r => inr (dict_set rid (extend [did] r) ri)
  end.

(** [for rid in drivers_info[did].routes: ...] *)
Fixpoint fill_routes (did : Z) (rids : list Z) (ri : pydict Route) : exn + pydict Route :=
  match rids with
  | [] => inr ri
  | rid :: rest =>
      match append_driver rid did ri with
      | inl e => inl e
      | inr ri' => fill_routes did rest ri'
      end
  end.

(** [for did in drivers_info: ...] *)
Fixpoint fill_drivers (dids : list Z) (di : pydict Driver) (ri : pydict Route)
  : exn + pydict Route :=
  match dids with
  | [] => inr ri
  | did :: rest =>
      match dict_get did di with
      | None => inl (KeyError did)
      | Some d =>
          match fill_routes did (d_routes d) ri with
          | inl e => inl e
          | inr ri' => fill_drivers rest di ri'
          end
      end
  end.

(** The two dict comprehensions of [parse]. *)
Definition drivers_table (ds : list driver_obj) : pydict Driver :=
  dict_of jd_id (fun o => mkDriver (jd_id o) (jd_name o) (jd_exp o) (jd_routes o)) ds.

Definition routes_table (rs : list route_obj) : pydict Route :=
  dict_of jr_id (fun o => mkRoute (jr_id o) (jr_start o) (jr_end o) []) rs.

(** [FietSAT.parse], from the two loaded JSON arrays. *)
Definition parse (ds : list driver_obj) (rs : list route_obj)
  : exn + (pydict Driver * pydict Route) :=
  let drivers_info := drivers_table ds in
  let routes_info := routes_table rs in
  match fill_drivers (dict_keys drivers_info) drivers_info routes_info with
  | inl e => inl e
  | inr routes_info' => inr (drivers_info, routes_info')
  end.

(** What the filling loops append to the list of route [rid]: one copy of
    [did] for each occurrence of [rid] in the driver's own list. *)
Definition appended (did rid : Z) (rids : list Z) : list Z :=
  map (fun _ => did) (List.filter (Z.eqb rid) rids).

Definition inverse_of (di : pydict Driver) (rid : Z) (dids : list Z) : list Z :=
  flat_map (fun did =>
    match dict_get did di with
    | Some d => appended did rid (d_routes d)
    | None => []
    end) dids.

(** ** Symbol table *)

Module IDPool.

(** Modelled from the spec: the symbol pool ([pysat.formula.IDPool]) is a
  library class whose code is outside this repository. Section 4.1 gives its
  contract: [id(name)] returns the integer bound to [name], or mints a fresh
  unused positive integer for a new name; [obj(integer)] is the inverse
  lookup and answers none for an integer without a registered name, such as
  the auxiliary variables of the cardinality encoder. The pool is a counter
  [top] of the largest integer handed out and the two tables. *)
Record t : Type := mk
{ top : Z; obj2id : gmap string Z; id2obj : gmap Z string }.

(** Modelled from the spec: [IDPool()], the pool before any name is bound. *)
Definition empty : t := mk 0 ∅ ∅.

(** Modelled from the spec: [pool.id(name)] answers the integer bound to
  [name]; a new name gets the integer after the counter, which moves on, and
  is entered in both tables. *)
Definition id (name : string) (p : t) : Z * t :=
match obj2id p !! name with
| Some v =>
    (v, match id2obj p !! v with
        | Some _ => p
        | None => mk (top p) (obj2id p) (<[v := name]> (id2obj p))
        end)
| None =>
    let v := top p + 1 in
    (v, mk v (<[name := v]> (obj2id p))
           (match id2obj p !! v with
            | Some _ => id2obj p
            | None => <[v := name]> (id2obj p)
            end))
end.

(** Modelled from the spec: [pool.obj(v)], the name registered for [v], if
  there is one. *)
Definition obj (v : Z) (p : t) : option string := id2obj p !! v.

(** Modelled from the spec: an encoder call allocates its auxiliary
  variables through the pool; it reports the largest variable [nv] of its
  clauses and the counter moves there, no name being registered. *)
Definition set_top (nv : Z) (p : t) : t := mk nv (obj2id p) (id2obj p).

(** Every named integer lies in [1..top] and the two tables are inverse to
  each other. *)
Record wf (p : t) : Prop := mk_wf
{ wf_top : 0 <= top p;
  wf_range : forall name v, obj2id p !! name = Some v -> 0 < v <= top p;
  wf_fwd : forall name v, obj2id p !! name = Some v -> id2obj p !! v = Some name;
  wf_bwd : forall v name, id2obj p !! v = Some name -> obj2id p !! name = Some v }.

(** One use of the pool: a name is looked up or minted, or the encoder takes
  auxiliary integers above the counter. *)
Inductive step : t -> t -> Prop :=
| step_id (name : string) (p : t) : step p (snd (id name p))
| step_aux (nv : Z) (p : t) : top p <= nv -> step p (set_top nv p).

(** The integers a pool has handed out so far. *)
Definition used (p : t) (v : Z) : Prop := 0 < v <= top p.

End IDPool.

(** ** Clauses *)

Definition clause : Type := list Z.
Definition formula : Type := list clause.

(** ** The solver object and the application object *)

Record FietSAT : Type := mkFietSAT
  { drivers_info : pydict Driver;
    routes_info : pydict Route;
    syms : IDPool.t;
    solver : formula;
    problem : list (list formula);
    model : list Z }.

(** Lines of the console report, one constructor per [print] of [report]:
    the banner with the clock, [Number of drivers: n], [Number of routes: n],
    [SAT? Yes], [SAT? No], [Route rid (start - end):] and
    [Driver did (name) @ exp. level exp]. *)
Inductive line : Type :=
| Banner (now : string)
| NumDrivers (n : nat)
| NumRoutes (n : nat)
| SatYes
| SatNo
| RouteLine (rid : Z) (start finish : string)
| DriverLine (did : Z) (name : string) (exp : Z).

(** ** The monad of methods *)

Record Res (A : Type) : Type := mkRes
  { out : list line; val : exn + A; st : FietSAT }.
Arguments mkRes {A} _ _ _.
Arguments out {A} _.
Arguments val {A} _.
Arguments st {A} _.

Definition M (A : Type) : Type := FietSAT -> Res A.

Definition ret {A} (a : A) : M A := fun s => mkRes [] (inr a) s.

Definition raise {A} (e : exn) : M A := fun s => mkRes [] (inl e) s.

Definition bind {A B} (m : M A) (f : A -> M B) : M B :=
  fun s =>
    let r := m s in
    match val r with
    | inl e => mkRes (out r) (inl e) (st r)
    | inr a => let r' := f a (st r) in mkRes (out r ++ out r') (val r') (st r')
    end.

Declare Scope fiet_scope.
Delimit Scope fiet_scope with fiet.
Notation "x <- m ;; k" := (bind m (fun x => k))
  (at level 100, m at next level, right associativity) : fiet_scope.
Notation "m ;; k" := (bind m (fun _ => k))
  (at level 100, right associativity) : fiet_scope.
Local Open Scope fiet_scope.

Definition get {A} (f : FietSAT -> A) : M A := fun s => mkRes [] (inr (f s)) s.

Definition print (l : line) : M unit := fun s => mkRes [l] (inr tt) s.

Definition lookup_or_raise {V} (k : Z) (d : pydict V) : M V :=
  match dict_get k d with
  | Some v => ret v
  | None => raise (KeyError k)
  end.

(** [[body(x) for x in xs]] *)
Fixpoint forM {A B} (xs : list A) (body : A -> M B) : M (list B) :=
  match xs with
  | [] => ret []
  | x :: xs' => y <- body x ;; ys <- forM xs' body ;; ret (y :: ys)
  end.

(** [[e for x in xs for e in inner(x)]] *)
Definition forM_flat {A B} (xs : list A) (inner : A -> M (list B)) : M (list B) :=
  yss <- forM xs inner ;; ret (concat yss).

(** [for x in xs: acc = body(acc, x)] *)
Fixpoint foldM {A S} (xs : list A) (acc : S) (body : S -> A -> M S) : M S :=
  match xs with
  | [] => ret acc
  | x :: xs' => acc' <- body acc x ;; foldM xs' acc' body
  end.

(** [for x in xs: body(x)] *)
Fixpoint forM_ {A} (xs : list A) (body : A -> M unit) : M unit :=
  match xs with
  | [] => ret tt
  | x :: xs' => body x ;; forM_ xs' body
  end.

(** ** Accessors *)

Definition drivers : M (list Z) := get (fun s => dict_keys (drivers_info s)).

Definition drivers_of (rid : Z) : M (list Z) :=
  ri <- get routes_info ;; r <- lookup_or_raise rid ri ;; ret (r_drivers r).

Definition driver_info (did : Z) : M Driver :=
  di <- get drivers_info ;; lookup_or_raise did di.

Definition routes : M (list Z) := get (fun s => dict_keys (routes_info s)).

Definition routes_of (did : Z) : M (list Z) :=
  di <- get drivers_info ;; d <- lookup_or_raise did di ;; ret (d_routes d).

Definition route_info (rid : Z) : M Route :=
  ri <- get routes_info ;; lookup_or_raise rid ri.

Definition exp (did : Z) : M Z :=
  di <- get drivers_info ;; d <- lookup_or_raise did di ;; ret (d_exp d).

(** ** Variables *)

(** [f'd_{did}_{rid}_{exp}'] *)
Definition var_name (did rid e : Z) : string :=
  ("d_" +:+ str did +:+ "_" +:+ str rid +:+ "_" +:+ str e)%string.

(** Running a pool operation on [self.syms]. *)
Definition with_syms {A} (op : IDPool.t -> A * IDPool.t) : M A :=
  fun s =>
    let '(a, p) := op (syms s) in
    mkRes [] (inr a)
      (mkFietSAT (drivers_info s) (routes_info s) p (solver s) (problem s) (model s)).

Definition vid (did rid e : Z) : M Z := with_syms (IDPool.id (var_name did rid e)).

Definition obj (v : Z) : M (option string) :=
  p <- get syms ;; ret (IDPool.obj v p).

(** [did, rid, exp = map(int, sym.split('_')[1:])] *)
Definition decode_name (sym : string) : M (Z * Z * Z) :=
  match map Py.int (tail (split "_"%char sym)) with
  | [Some did; Some rid; Some e] => ret (did, rid, e)
  | _ => raise ValueError
  end.

(** The [Solution]: route key to the recorded [(driver, level)] pairs. *)
Definition solution : Type := pydict (list (Z * Z)).

(** Field assignments on [self]. *)
Definition set_problem (pr : list (list formula)) : M unit :=
  fun s => mkRes [] (inr tt)
    (mkFietSAT (drivers_info s) (routes_info s) (syms s) (solver s) pr (model s)).

Definition set_model (m : list Z) : M unit :=
  fun s => mkRes [] (inr tt)
    (mkFietSAT (drivers_info s) (routes_info s) (syms s) (solver s) (problem s) m).

(** [self.solver.append_formula(formula)] *)
Definition append_formula (f : formula) : M unit :=
  fun s => mkRes [] (inr tt)
    (mkFietSAT (drivers_info s) (routes_info s) (syms s) (solver s ++ f) (problem s) (model s)).

(** [FietSAT.__init__] *)
Definition init (ds : list driver_obj) (rs : list route_obj) : exn + FietSAT :=
  match parse ds rs with
  | inl e => inl e
  | inr (di, ri) => inr (mkFietSAT di ri IDPool.empty [] [] [])
  end.

(** [m], started in [s], prints nothing, raises nothing and ends with a value
    and a state that satisfy [Q]. *)
Definition wp {A} (m : M A) (s : FietSAT) (Q : A -> FietSAT -> Prop) : Prop :=
  exists a s', m s = mkRes [] (inr a) s' /\ Q a s'.

(** The variable of a triple in a pool. *)
Definition bound (p : IDPool.t) (t : Z * Z * Z) (v : Z) : Prop :=
  let '(d, r, e) := t in IDPool.obj2id p !! var_name d r e = Some v.

(** The domain model is a frame of [m]: whatever [m] does, the two maps of
    the object it leaves behind are the ones it started with. *)
Definition keeps_domain {A} (m : M A) : Prop :=
  forall s, drivers_info (st (m s)) = drivers_info s /\
            routes_info (st (m s)) = routes_info s.

Section Program.

(** The cardinality encoder and the SAT engine are libraries outside the
    repository. An encoder call receives the literals and the pool's
    counter and answers its clauses and the largest variable they use;
    the engine answers a model for a satisfiable formula. [now] is the
    rendered clock of the report banner. *)
Variable atmost : list Z -> Z -> formula * Z.
Variable equals : list Z -> Z -> formula * Z.
Variable sat_solve : formula -> option (list Z).
Variable now : string.

(** [CardEnc.atmost(lits, vpool=self.syms).clauses] *)
Definition CardEnc_atmost (lits : list Z) : M formula :=
  with_syms (fun p =>
    let '(cls, nv) := atmost lits (IDPool.top p) in (cls, IDPool.set_top nv p)).

(** [CardEnc.equals(lits, vpool=self.syms).clauses] *)
Definition CardEnc_equals (lits : list Z) : M formula :=
  with_syms (fun p =>
    let '(cls, nv) := equals lits (IDPool.top p) in (cls, IDPool.set_top nv p)).

(** *** [formulate] *)

(** The bundles of the first group for one driver: one per eligible route. *)
Definition c1_for (did : Z) : M (list formula) :=
  rids <- routes_of did ;;
  forM rids (fun rid =>
    lits <- forM range_4_0 (fun e => vid did rid e) ;;
    CardEnc_atmost lits).

(** The bundle of the second group for one driver. *)
Definition c2_for (did : Z) : M formula :=
  lits <- (rids <- routes_of did ;;
           forM_flat rids (fun rid => forM range_4_0 (fun e => vid did rid e))) ;;
  CardEnc_atmost lits.

(** The bundles of the third group for one route: one per level. *)
Definition c3_for (rid : Z) : M (list formula) :=
  forM range_4_0 (fun e =>
    lits <- (dids <- drivers_of rid ;; forM dids (fun did => vid did rid e)) ;;
    CardEnc_equals lits).

(** The unit clauses of the fourth group for one driver. *)
Definition c4_for (did : Z) : M (list formula) :=
  rids <- routes_of did ;;
  forM_flat rids (fun rid =>
    x <- exp did ;;
    forM (range (x + 1) 5) (fun e => v <- vid did rid e ;; ret [[- v]])).

Definition formulate
  : M (list formula * list formula * list formula * list formula) :=
  c_1 <- (dids <- drivers ;; forM_flat dids c1_for) ;;
  c_2 <- (dids <- drivers ;; forM dids c2_for) ;;
  c_3 <- (rids <- routes ;; forM_flat rids c3_for) ;;
  c_4 <- (dids <- drivers ;; forM_flat dids c4_for) ;;
  set_problem [c_1; c_2; c_3; c_4] ;;
  ret (c_1, c_2, c_3, c_4).

(** *** [solve] *)

Definition solve : M bool :=
  pr <- get problem ;;
  forM_ pr (fun c_group => forM_ c_group append_formula) ;;
  cls <- get solver ;;
  match sat_solve cls with
  | Some m => set_model m ;; ret true
  | None => set_model [] ;; ret false
  end.

(** *** [report] *)

(** The body of the decoding loop for one literal of the model. *)
Definition record_lit (sol : solution) (lit : Z) : M solution :=
  if 0 <? lit then
    sym <- obj lit ;;
    match sym with
    | None => ret sol
    | Some name =>
        t <- decode_name name ;;
        let '(did, rid, e) := t in
        pairs <- lookup_or_raise rid sol ;;
        ret (dict_set rid (pairs ++ [(did, e)]) sol)
    end
  else ret sol.

(** The lines printed for one route of the solution. *)
Definition print_route (sol : solution) (rid : Z) : M unit :=
  r <- route_info rid ;;
  print (RouteLine rid (r_start r) (r_end r)) ;;
  pairs <- lookup_or_raise rid sol ;;
  forM_ (sorted_desc snd pairs) (fun '(did, e) =>
    d <- driver_info did ;;
    print (DriverLine did (d_name d) e)).

Definition is_nil {A} (l : list A) : bool :=
  match l with [] => true | _ => false end.

Definition report : M solution :=
  rs <- routes ;;
  let solution0 : solution :=
    dict_of (fun rid => rid) (fun _ => []) (range 1 (Z.of_nat (length rs) + 1)) in
  m <- get model ;;
  if negb (is_nil m) then
    sol <- foldM m solution0 record_lit ;;
    print (Banner now) ;;
    ds <- drivers ;;
    print (NumDrivers (length ds)) ;;
    rs' <- routes ;;
    print (NumRoutes (length rs')) ;;
    m' <- get model ;;
    (if negb (is_nil m') then
       print SatYes ;;
       forM_ (dict_keys sol) (print_route sol)
     else print SatNo) ;;
    ret sol
  else ret solution0.

(** The script: [formulate], [solve], [report]. *)
Definition main : M solution := formulate ;; solve ;; report.

(** *** Specification vocabulary *)

(** Driver [d] and route [r] are paired by one of the two eligibility
    lists of the domain model. *)
Definition eligible (di : pydict Driver) (ri : pydict Route) (d r : Z) : Prop :=
  (exists dr, dict_get d di = Some dr /\ In r (d_routes dr)) \/
  (exists rt, dict_get r ri = Some rt /\ In d (r_drivers rt)).

(** One use of the pool by [formulate]: a variable of an eligible pair is
    looked up or minted, or an encoder call moves the counter. *)
Inductive fstep (di : pydict Driver) (ri : pydict Route) : IDPool.t -> IDPool.t -> Prop :=
| fstep_vid (d r e : Z) (p : IDPool.t) :
    eligible di ri d r -> fstep di ri p (snd (IDPool.id (var_name d r e) p))
| fstep_atmost (lits : list Z) (p : IDPool.t) :
    fstep di ri p (IDPool.set_top (snd (atmost lits (IDPool.top p))) p)
| fstep_equals (lits : list Z) (p : IDPool.t) :
    fstep di ri p (IDPool.set_top (snd (equals lits (IDPool.top p))) p).

(** [s'] is [s] after some uses of the pool by [formulate]; every other
    field but [problem] is the same. *)
Definition ext (s s' : FietSAT) : Prop :=
  drivers_info s' = drivers_info s /\
  routes_info s' = routes_info s /\
  solver s' = solver s /\
  model s' = model s /\
  rtc (fstep (drivers_info s) (routes_info s)) (syms s) (syms s').

(** The triples of the fourth group, in the order of the comprehension. *)
Definition c4_triples_of (did : Z) (dr : Driver) : list (Z * Z * Z) :=
  flat_map (fun rid => map (fun e => (did, rid, e)) (range (d_exp dr + 1) 5))
           (d_routes dr).

Definition c4_triples (di : pydict Driver) : list (Z * Z * Z) :=
  flat_map (fun did =>
    match dict_get did di with
    | Some dr => c4_triples_of did dr
    | None => []
    end) (dict_keys di).

End Program.

(** ** Reading the console report back *)

(** The [(driver, level)] pair a driver line presents. *)
Definition line_pair (l : line) : option (Z * Z) :=
  match l with
  | DriverLine did _ e => Some (did, e)
  | _ => None
  end.

(** The pairs in front of the first route line, and then each route line
    with the pairs presented under it, in the order of the output. *)
Fixpoint blocks_aux (ls : list line) : list (Z * Z) * list (Z * list (Z * Z)) :=
  match ls with
  | [] => ([], [])
  | l :: rest =>
      let '(pend, bs) := blocks_aux rest in
      match l with
      | DriverLine did _ e => ((did, e) :: pend, bs)
      | RouteLine rid _ _ => ([], (rid, pend) :: bs)
      | _ => (pend, bs)
      end
  end.

Definition blocks (ls : list line) : list (Z * list (Z * Z)) := snd (blocks_aux ls).

(** [solution[rid]] of a solution that has the key. *)
Definition pairs_at (sol : solution) (rid : Z) : list (Z * Z) :=
  match dict_get rid sol with
  | Some pairs => pairs
  | None => []
  end.

(** ** Index lists of the first three clause groups *)

(** The four level variables of a pair, in the order of [range(4, 0, -1)]. *)
Definition level_triples (did rid : Z) : list (Z * Z * Z) :=
  map (fun e => (did, rid, e)) range_4_0.

(** The pairs of the first group: each driver with each route of its list. *)
Definition c1_pairs (di : pydict Driver) : list (Z * Z) :=
  flat_map (fun did =>
    match dict_get did di with
    | Some dr => map (fun rid => (did, rid)) (d_routes dr)
    | None => []
    end) (dict_keys di).

(** The triples of one driver in the second group. *)
Definition c2_triples (di : pydict Driver) (did : Z) : list (Z * Z * Z) :=
  match dict_get did di with
  | Some dr => flat_map (fun rid => level_triples did rid) (d_routes dr)
  | None => []
  end.

(** The (route, level) slots of the third group and the triples of a slot. *)
Definition c3_slots (ri : pydict Route) : list (Z * Z) :=
  flat_map (fun rid => map (fun e => (rid, e)) range_4_0) (dict_keys ri).

Definition c3_triples (ri : pydict Route) (slot : Z * Z) : list (Z * Z * Z) :=
  let '(rid, e) := slot in
  match dict_get rid ri with
  | Some rt => map (fun did => (did, rid, e)) (r_drivers rt)
  | None => []
  end.

(** [f] is what encoder [enc] answers for the variables of [ts] in pool [p]. *)
Definition encodes (enc : list Z -> Z -> formula * Z) (p : IDPool.t)
    (ts : list (Z * Z * Z)) (f : formula) : Prop :=
  exists vs top, Forall2 (bound p) ts vs /\ f = fst (enc vs top).

(** The triple a positive literal of the model stands for, if its variable
    has a name that splits into three integers. *)
Definition decoded (p : IDPool.t) (lit : Z) : option (Z * Z * Z) :=
  if 0 <? lit then
    match IDPool.id2obj p !! lit with
    | Some name =>
        match map Py.int (tail (split "_"%char name)) with
        | [Some did; Some rid; Some e] => Some (did, rid, e)
        | _ => None
        end
    | None => None
    end
  else None.

(** The pairs a model records under route [rid], in the order of the model. *)
Definition recorded (p : IDPool.t) (rid : Z) (m : list Z) : list (Z * Z) :=
  flat_map (fun lit =>
    match decoded p lit with
    | Some (did, r, e) => if Z.eqb r rid then [(did, e)] else []
    | None => []
    end) m.

(** ** A small instance

    Two drivers and two routes, a pairwise at-most-one encoder without
    auxiliary variables, an exactly-one encoder that reserves one auxiliary
    variable, and a solver stub that answers a fixed model. *)

Module Sample.

Definition drivers_json : list driver_obj :=
  [mkDriverObj 1 "Ann" 3 [1; 2]; mkDriverObj 2 "Bob" 4 [1]; mkDriverObj 3 "Cy" 2 []].

Definition routes_json : list route_obj :=
  [mkRouteObj 1 "Delft" "Gouda"; mkRouteObj 2 "Breda" "Assen"].

(** Two drivers for the four levels of one route: no assignment exists. *)
Definition drivers_short : list driver_obj :=
  [mkDriverObj 1 "Ann" 3 [1]; mkDriverObj 2 "Bob" 2 [1]].

Definition routes_one : list route_obj := [mkRouteObj 1 "Delft" "Gouda"].

Definition short_app : FietSAT :=
  mkFietSAT
    [(1, mkDriver 1 "Ann" 3 [1]); (2, mkDriver 2 "Bob" 2 [1])]
    [(1, mkRoute 1 "Delft" "Gouda" [1; 2])]
    IDPool.empty [] [] [].

(** A drivers file that names a route the routes file does not have. *)
Definition drivers_bad : list driver_obj :=
  [mkDriverObj 1 "Ann" 3 [1; 7]].

(** Routes whose identifiers are not [1..n]. *)
Definition routes_far : list route_obj := [mkRouteObj 10 "Delft" "Gouda"].

Definition drivers_far : list driver_obj := [mkDriverObj 1 "Ann" 3 [10]].

Fixpoint pairs (lits : list Z) : formula :=
  match lits with
  | [] => []
  | x :: rest => map (fun y => [- x; - y]) rest ++ pairs rest
  end.

Definition atmost (lits : list Z) (top : Z) : formula * Z := (pairs lits, top).

Definition equals (lits : list Z) (top : Z) : formula * Z :=
  ((top + 1 :: lits) :: [- (top + 1)] :: pairs lits, top + 1).

Definition sat_solve (model : list Z) (f : formula) : option (list Z) := Some model.

Definition unsat (f : formula) : option (list Z) := None.

Definition now : string := "12:00, Jan 01 2024".

(** An object whose only route has ID 10, with the variable of
    [(1, 10, 4)] in the pool and a model that sets it. *)
Definition far_app : FietSAT :=
  mkFietSAT
    [(1, mkDriver 1 "Ann" 4 [10])]
    [(10, mkRoute 10 "Delft" "Gouda" [1])]
    (snd (IDPool.id (var_name 1 10 4) IDPool.empty)) [] [] [1].

(** An object with one route of ID 1, the variable of [(1, 1, 4)] in the
    pool and a model that sets it, clears variable 2 and sets the unnamed
    variable 7. *)
Definition near_app : FietSAT :=
  mkFietSAT
    [(1, mkDriver 1 "Ann" 4 [1])]
    [(1, mkRoute 1 "Delft" "Gouda" [1])]
    (snd (IDPool.id (var_name 1 1 4) IDPool.empty)) [] [] [1; -2; 7].

(** The object the constructor builds from the two sample files. *)
Definition app : FietSAT :=
  mkFietSAT
    [(1, mkDriver 1 "Ann" 3 [1; 2]); (2, mkDriver 2 "Bob" 4 [1]); (3, mkDriver 3 "Cy" 2 [])]
    [(1, mkRoute 1 "Delft" "Gouda" [1; 2]); (2, mkRoute 2 "Breda" "Assen" [1])]
    IDPool.empty [] [] [].

End Sample.

(** ** Facts about the built-ins *)

Module PyFacts.

Lemma uint_no_sep (d : Decimal.uint) : no_sep (NilEmpty.string_of_uint d).
Proof. induction d; simpl; auto; split; auto; discriminate. Qed.

Lemma uint_not_plus (d : Decimal.uint) (s : string) :
NilEmpty.string_of_uint d <> String "+"%char s.
Proof. destruct d; simpl; discriminate. Qed.

Lemma nz_uint_no_sep (d : Decimal.uint) : no_sep (NilZero.string_of_uint d).
Proof.
destruct d; try apply uint_no_sep.
simpl. split; [discriminate | exact I].
Qed.

Lemma str_no_sep (z : Z) : no_sep (str z).
Proof.
unfold str. destruct (Z.to_int z); simpl.
- apply nz_uint_no_sep.
- split; [discriminate | apply nz_uint_no_sep].
Qed.

Lemma to_int_proper (z : Z) :
Z.to_int z <> Decimal.Pos Decimal.Nil /\ Z.to_int z <> Decimal.Neg Decimal.Nil.
Proof.
destruct z; simpl; split; try discriminate;
  intros [= H]; revert H; apply DecimalPos.Unsigned.to_uint_nonnil.
Qed.

Lemma str_not_plus (z : Z) (s : string) : str z <> String "+"%char s.
Proof.
unfold str. destruct z; simpl; try discriminate.
unfold NilZero.string_of_uint.
destruct (Pos.to_uint p); simpl; discriminate.
Qed.

(** [int(str(z)) == z] *)
Lemma int_str (z : Z) : Py.int (str z) = Some z.
Proof.
assert (H : option_map Z.of_int (NilZero.int_of_string (str z)) = Some z).
{ unfold str. destruct (to_int_proper z) as [H1 H2].
  rewrite NilZero.isi by assumption. simpl. f_equal. apply DecimalZ.of_to. }
unfold Py.int.
destruct (str z) as [|c s] eqn:E; [exact H|].
destruct (Ascii.eqb_spec c "+"%char) as [->|Hc].
- exfalso. exact (str_not_plus z s E).
- destruct c as [[] [] [] [] [] [] [] []]; try exact H. congruence.
Qed.

Lemma split_no_sep (s : string) : no_sep s -> split "_"%char s = [s].
Proof.
induction s as [|c s IH]; simpl; [reflexivity|].
intros [Hc Hs]. rewrite (IH Hs).
destruct (Ascii.eqb_spec c "_"%char); [contradiction | reflexivity].
Qed.

Lemma split_app_sep (a rest : string) :
no_sep a ->
split "_"%char (a +:+ String "_"%char rest) = a :: split "_"%char rest.
Proof.
induction a as [|c a IH]; simpl; [reflexivity|].
intros [Hc Ha]. rewrite (IH Ha).
destruct (Ascii.eqb_spec c "_"%char); [contradiction | reflexivity].
Qed.

Lemma split_var_name (did rid e : Z) :
split "_"%char (var_name did rid e) = ["d"%string; str did; str rid; str e].
Proof.
change (var_name did rid e) with
  ("d" +:+ String "_"%char
     (str did +:+ String "_"%char (str rid +:+ String "_"%char (str e))))%string.
rewrite split_app_sep by (simpl; split; [discriminate | exact I]).
rewrite split_app_sep by apply str_no_sep.
rewrite split_app_sep by apply str_no_sep.
rewrite split_no_sep by apply str_no_sep.
reflexivity.
Qed.

Lemma ints_var_name (did rid e : Z) :
map Py.int (tail (split "_"%char (var_name did rid e)))
= [Some did; Some rid; Some e].
Proof. rewrite split_var_name. simpl. rewrite !int_str. reflexivity. Qed.

Lemma var_name_inj (d r e d' r' e' : Z) :
var_name d r e = var_name d' r' e' -> d = d' /\ r = r' /\ e = e'.
Proof.
intros H. pose proof (ints_var_name d r e) as H1.
rewrite H, ints_var_name in H1. injection H1; auto.
Qed.

End PyFacts.

(** ** Facts about [sorted] and [dict] *)

Section SortedFacts.
Context {A : Type} (key : A -> Z).

Lemma insert_desc_perm (x : A) (l : list A) :
  Permutation (x :: l) (insert_desc key x l).
Proof.
  induction l as [|y l IH]; simpl; [reflexivity|].
  destruct (key x <? key y); [|reflexivity].
  rewrite perm_swap. now apply perm_skip.
Qed.

Lemma sorted_desc_perm (l : list A) : Permutation l (sorted_desc key l).
Proof.
  induction l as [|x l IH]; simpl; [reflexivity|].
  rewrite <- insert_desc_perm. now apply perm_skip.
Qed.

Lemma insert_desc_sorted (x : A) (l : list A) :
  StronglySorted (desc key) l -> StronglySorted (desc key) (insert_desc key x l).
Proof.
  induction 1 as [|y l Hl IH Hy]; simpl.
  - repeat constructor.
  - destruct (Z.ltb_spec (key x) (key y)) as [Hlt|Hge].
    + constructor; [exact IH|].
      rewrite <- insert_desc_perm. constructor; [unfold desc; lia | exact Hy].
    + constructor; [now constructor|].
      constructor; [exact Hge|].
      eapply List.Forall_impl; [|exact Hy]. unfold desc. intros; lia.
Qed.

Lemma sorted_desc_sorted (l : list A) : StronglySorted (desc key) (sorted_desc key l).
Proof.
  induction l; simpl; [constructor | now apply insert_desc_sorted].
Qed.
End SortedFacts.

Section DictFacts.
Context {V : Type}.
Implicit Types d : pydict V.

Lemma dict_get_set (k k' : Z) (v : V) d :
  dict_get k' (dict_set k v d) = if Z.eqb k' k then Some v else dict_get k' d.
Proof.
  induction d as [|[k0 v0] d IH]; simpl.
  - destruct (Z.eqb_spec k' k); reflexivity.
  - destruct (Z.eqb_spec k k0) as [->|Hk]; simpl.
    + destruct (Z.eqb_spec k' k0); reflexivity.
    + destruct (Z.eqb_spec k' k0) as [->|Hk'].
      * destruct (Z.eqb_spec k0 k); [congruence | reflexivity].
      * exact IH.
Qed.

Lemma dict_keys_set (k : Z) (v : V) d :
  dict_get k d <> None -> dict_keys (dict_set k v d) = dict_keys d.
Proof.
  induction d as [|[k0 v0] d IH]; simpl; [congruence|].
  destruct (Z.eqb_spec k k0); simpl; [reflexivity|].
  intros H. f_equal. now apply IH.
Qed.

Lemma dict_get_keys (k : Z) d : In k (dict_keys d) <-> dict_get k d <> None.
Proof.
  induction d as [|[k0 v0] d IH]; simpl; [tauto|].
  destruct (Z.eqb_spec k k0) as [->|Hk]; [split; [discriminate | auto]|].
  rewrite <- IH. split; [intros [?|?]; [congruence | assumption] | auto].
Qed.

Lemma dict_get_In (k : Z) (v : V) d : dict_get k d = Some v -> In (k, v) d.
Proof.
  induction d as [|[k0 v0] d IH]; simpl; [discriminate|].
  destruct (Z.eqb_spec k k0) as [->|Hk]; [intros [= ->]; auto | auto].
Qed.

Lemma dict_fold_get {X} (key : X -> Z) (value : X -> V) (xs : list X) d (k : Z) (v : V) :
  dict_get k (fold_left (fun d x => dict_set (key x) (value x) d) xs d) = Some v ->
  dict_get k d = Some v \/ exists x, In x xs /\ key x = k /\ value x = v.
Proof.
  revert d. induction xs as [|x xs IH]; simpl; intros d H; [now left|].
  destruct (IH _ H) as [H1|(y & Hy & Hk & Hv)]; [|right; eauto].
  rewrite dict_get_set in H1.
  destruct (Z.eqb_spec k (key x)) as [->|Hne]; [|now left].
  injection H1 as <-. right. eauto.
Qed.

Lemma dict_of_get {X} (key : X -> Z) (value : X -> V) (xs : list X) (k : Z) (v : V) :
  dict_get k (dict_of key value xs) = Some v ->
  exists x, In x xs /\ key x = k /\ value x = v.
Proof.
  intros H. apply dict_fold_get in H as [H|H]; [discriminate | exact H].
Qed.
End DictFacts.

(** ** [parse]: the inverse index *)

Section ParseFacts.

Lemma extend_nil (r : Route) : extend [] r = r.
Proof. destruct r. unfold extend. simpl. now rewrite List.app_nil_r. Qed.

Lemma extend_extend (l1 l2 : list Z) (r : Route) :
  extend l2 (extend l1 r) = extend (l1 ++ l2) r.
Proof. unfold extend. simpl. now rewrite List.app_assoc. Qed.

Lemma append_driver_get (rid did : Z) (ri ri' : pydict Route) :
  append_driver rid did ri = inr ri' ->
  forall k, dict_get k ri' =
    option_map (extend (if Z.eqb k rid then [did] else [])) (dict_get k ri).
Proof.
  unfold append_driver. destruct (dict_get rid ri) as [r|] eqn:E; [|discriminate].
  intros [= <-] k. rewrite dict_get_set.
  destruct (Z.eqb_spec k rid) as [->|Hk].
  - now rewrite E.
  - destruct (dict_get k ri); simpl; [now rewrite extend_nil | reflexivity].
Qed.

Lemma fill_routes_get (did : Z) (rids : list Z) :
  forall ri ri', fill_routes did rids ri = inr ri' ->
  forall k, dict_get k ri' = option_map (extend (appended did k rids)) (dict_get k ri).
Proof.
  induction rids as [|rid rest IH]; simpl; intros ri ri' H k.
  - injection H as <-. destruct (dict_get k ri); simpl; [now rewrite extend_nil | reflexivity].
  - destruct (append_driver rid did ri) as [e|ri1] eqn:E; [discriminate|].
    rewrite (IH _ _ H k), (append_driver_get _ _ _ _ E k).
    unfold appended. simpl.
    destruct (dict_get k ri) as [r|]; simpl; [|reflexivity].
    rewrite extend_extend.
    destruct (Z.eqb k rid); reflexivity.
Qed.

Lemma fill_drivers_get (di : pydict Driver) (dids : list Z) :
  forall ri ri', fill_drivers dids di ri = inr ri' ->
  forall k, dict_get k ri' = option_map (extend (inverse_of di k dids)) (dict_get k ri).
Proof.
  induction dids as [|did rest IH]; simpl; intros ri ri' H k.
  - injection H as <-. destruct (dict_get k ri); simpl; [now rewrite extend_nil | reflexivity].
  - destruct (dict_get did di) as [d|]; [|discriminate].
    destruct (fill_routes did (d_routes d) ri) as [e|ri1] eqn:E; [discriminate|].
    rewrite (IH _ _ H k), (fill_routes_get _ _ _ _ E k).
    destruct (dict_get k ri) as [r|]; simpl; [|reflexivity].
    now rewrite extend_extend.
Qed.

Lemma fill_routes_fail (did : Z) (rids : list Z) :
  forall ri, (exists rid, In rid rids /\ dict_get rid ri = None) ->
  exists k, fill_routes did rids ri = inl (KeyError k) /\ dict_get k ri = None.
Proof.
  induction rids as [|rid0 rest IH]; simpl; intros ri (rid & Hin & Hnone); [contradiction|].
  unfold append_driver at 1.
  destruct (dict_get rid0 ri) as [r|] eqn:E; [|eauto].
  assert (Ea : append_driver rid0 did ri = inr (dict_set rid0 (extend [did] r) ri))
    by (unfold append_driver; now rewrite E).
  destruct Hin as [->|Hin]; [congruence|].
  destruct (IH (dict_set rid0 (extend [did] r) ri)) as (k & Hk & Hk').
  - exists rid. split; [exact Hin|]. rewrite (append_driver_get _ _ _ _ Ea), Hnone. reflexivity.
  - exists k. split; [exact Hk|].
    rewrite (append_driver_get _ _ _ _ Ea) in Hk'.
    destruct (dict_get k ri); [discriminate | reflexivity].
Qed.

Lemma fill_routes_total (did : Z) (rids : list Z) :
  forall ri, (forall rid, In rid rids -> dict_get rid ri <> None) ->
  exists ri', fill_routes did rids ri = inr ri'.
Proof.
  induction rids as [|rid0 rest IH]; simpl; intros ri H; [eauto|].
  unfold append_driver at 1.
  destruct (dict_get rid0 ri) as [r|] eqn:E; [|exfalso; eapply H; eauto].
  assert (Ea : append_driver rid0 did ri = inr (dict_set rid0 (extend [did] r) ri))
    by (unfold append_driver; now rewrite E).
  apply IH. intros rid Hin. rewrite (append_driver_get _ _ _ _ Ea).
  specialize (H rid (or_intror Hin)). destruct (dict_get rid ri); [discriminate | congruence].
Qed.

Lemma fill_routes_inl (did : Z) (rids : list Z) :
  forall ri e, fill_routes did rids ri = inl e ->
  exists k, e = KeyError k /\ dict_get k ri = None.
Proof.
  induction rids as [|rid0 rest IH]; simpl; intros ri e H; [discriminate|].
  destruct (append_driver rid0 did ri) as [e'|ri1] eqn:E.
  - injection H as <-. unfold append_driver in E.
    destruct (dict_get rid0 ri) eqn:E'; [discriminate|]. injection E as <-. eauto.
  - destruct (IH _ _ H) as (k & -> & Hk). exists k. split; [reflexivity|].
    rewrite (append_driver_get _ _ _ _ E) in Hk.
    destruct (dict_get k ri); [discriminate | reflexivity].
Qed.

Lemma fill_drivers_fail (di : pydict Driver) (dids : list Z) :
  (forall did, In did dids -> dict_get did di <> None) ->
  forall ri,
  (exists did d rid, In did dids /\ dict_get did di = Some d /\
                     In rid (d_routes d) /\ dict_get rid ri = None) ->
  exists k, fill_drivers dids di ri = inl (KeyError k) /\ dict_get k ri = None.
Proof.
  induction dids as [|did0 rest IH]; simpl; intros Hd ri (did & d & rid & Hin & Hg & Hr & Hnone);
    [contradiction|].
  destruct (dict_get did0 di) as [d0|] eqn:E0;
    [|exfalso; exact (Hd did0 (or_introl eq_refl) E0)].
  destruct (fill_routes did0 (d_routes d0) ri) as [e|ri1] eqn:E.
  - destruct (fill_routes_inl _ _ _ _ E) as (k & -> & Hk). eauto.
  - destruct (IH (fun x Hx => Hd x (or_intror Hx)) ri1) as (k & Hk & Hk').
    + destruct Hin as [<-|Hin].
      * exfalso. destruct (fill_routes_fail did0 (d_routes d0) ri) as (k & Hk & _); [|congruence].
        exists rid. split; [congruence | exact Hnone].
      * exists did, d, rid. repeat split; auto.
        rewrite (fill_routes_get _ _ _ _ E), Hnone. reflexivity.
    + exists k. split; [exact Hk|].
      rewrite (fill_routes_get _ _ _ _ E) in Hk'.
      destruct (dict_get k ri); [discriminate | reflexivity].
Qed.

End ParseFacts.

Lemma appended_In (d did rid : Z) (rids : list Z) :
  In d (appended did rid rids) <-> d = did /\ In rid rids.
Proof.
  unfold appended. rewrite List.in_map_iff. split.
  - intros (x & <- & Hx). apply List.filter_In in Hx as [Hx Heq].
    apply Z.eqb_eq in Heq. subst. auto.
  - intros [-> Hin]. exists rid. split; [reflexivity|].
    apply List.filter_In. split; [exact Hin | apply Z.eqb_refl].
Qed.

Lemma inverse_of_In (di : pydict Driver) (rid d : Z) (dids : list Z) :
  In d (inverse_of di rid dids) <->
  In d dids /\ exists dr, dict_get d di = Some dr /\ In rid (d_routes dr).
Proof.
  unfold inverse_of. rewrite List.in_flat_map. split.
  - intros (did & Hin & H). destruct (dict_get did di) as [dr|] eqn:E; [|contradiction].
    apply appended_In in H as [-> H]. eauto.
  - intros (Hin & dr & Hg & Hr). exists d. split; [exact Hin|].
    rewrite Hg. apply appended_In. auto.
Qed.

Lemma parse_inr (ds : list driver_obj) (rs : list route_obj) di ri :
  parse ds rs = inr (di, ri) ->
  di = drivers_table ds /\
  fill_drivers (dict_keys di) di (routes_table rs) = inr ri.
Proof.
  unfold parse.
  destruct (fill_drivers _ _ _) as [e|ri'] eqn:E; [discriminate|].
  intros [= <- <-]. auto.
Qed.

Lemma parse_drivers_list (ds : list driver_obj) (rs : list route_obj) di ri rid r :
  parse ds rs = inr (di, ri) -> dict_get rid ri = Some r ->
  r_id r = rid /\ r_drivers r = inverse_of di rid (dict_keys di).
Proof.
  intros Hp Hr. apply parse_inr in Hp as [-> Hf].
  rewrite (fill_drivers_get _ _ _ _ Hf rid) in Hr.
  destruct (dict_get rid (routes_table rs)) as [r0|] eqn:E0; [|discriminate].
  injection Hr as <-.
  apply dict_of_get in E0 as (o & _ & Hk & <-). simpl. auto.
Qed.

(** C3: after a successful [parse], the drivers list of every route [rid] of
    the routes map holds exactly the driver IDs whose own routes list contains
    [rid]: it is the inverse of the driver-to-route relation (and the route
    stored under [rid] carries [rid] as its ID). *)
Theorem parse_inverse_index (ds : list driver_obj) (rs : list route_obj)
    (di : pydict Driver) (ri : pydict Route) :
  parse ds rs = inr (di, ri) ->
  forall rid r, dict_get rid ri = Some r ->
    r_id r = rid /\
    forall d, In d (r_drivers r) <->
              exists dr, dict_get d di = Some dr /\ In rid (d_routes dr).
Proof.
  intros Hp rid r Hr.
  destruct (parse_drivers_list _ _ _ _ _ _ Hp Hr) as [Hid Hl].
  split; [exact Hid|]. intros d. rewrite Hl, inverse_of_In. split.
  - intros [_ H]. exact H.
  - intros (dr & Hg & Hin). split; [|eauto].
    apply dict_get_keys. congruence.
Qed.

Lemma parse_inverse_index_witness :
  r_id (mkRoute 1 "Delft" "Gouda" [1; 2]) = 1 /\
  forall d, In d (r_drivers (mkRoute 1 "Delft" "Gouda" [1; 2])) <->
    exists dr, dict_get d (drivers_info Sample.app) = Some dr /\ In 1 (d_routes dr).
Proof.
  exact (parse_inverse_index Sample.drivers_json Sample.routes_json
           (drivers_info Sample.app) (routes_info Sample.app) eq_refl
           1 (mkRoute 1 "Delft" "Gouda" [1; 2]) eq_refl).
Defined.

(** C6: when the routes list of a driver of the drivers map names a route ID
    that is no key of the routes map, [parse] raises [KeyError] on a missing
    route key, and so does the constructor; nothing is skipped or repaired. *)
Theorem parse_unknown_route (ds : list driver_obj) (rs : list route_obj) :
  (exists did d rid, dict_get did (drivers_table ds) = Some d /\
                     In rid (d_routes d) /\
                     dict_get rid (routes_table rs) = None) ->
  exists k, dict_get k (routes_table rs) = None /\
            parse ds rs = inl (KeyError k) /\
            init ds rs = inl (KeyError k).
Proof.
  intros (did & d & rid & Hg & Hin & Hnone).
  destruct (fill_drivers_fail (drivers_table ds) (dict_keys (drivers_table ds))) with
    (ri := routes_table rs) as (k & Hk & Hk').
  - intros x Hx. now apply dict_get_keys.
  - exists did, d, rid. repeat split; auto. apply dict_get_keys. congruence.
  - exists k. unfold init, parse. rewrite Hk. auto.
Qed.

Lemma parse_unknown_route_witness :
  exists k, dict_get k (routes_table Sample.routes_json) = None /\
            parse Sample.drivers_bad Sample.routes_json = inl (KeyError k) /\
            init Sample.drivers_bad Sample.routes_json = inl (KeyError k).
Proof.
  apply (parse_unknown_route Sample.drivers_bad Sample.routes_json).
  exists 1, (mkDriver 1 "Ann" 3 [1; 7]), 7.
  split; [reflexivity|]. split; [simpl; tauto | reflexivity].
Defined.

(** ** The symbol pool *)

Module PoolFacts.
Import IDPool.

Lemma wf_empty : wf empty.
Proof. split; simpl; try lia; intros ? ?; rewrite lookup_empty; discriminate. Qed.

Lemma id_bound (p : t) (name : string) (v : Z) :
  wf p -> obj2id p !! name = Some v -> id name p = (v, p).
Proof.
  intros W H. unfold id. rewrite H, (wf_fwd p W _ _ H). reflexivity.
Qed.

Lemma id_fresh (p : t) (name : string) :
  wf p -> obj2id p !! name = None ->
  id name p = (top p + 1,
               mk (top p + 1) (<[name := top p + 1]> (obj2id p))
                  (<[top p + 1 := name]> (id2obj p))).
Proof.
  intros W H. unfold id. rewrite H.
  destruct (id2obj p !! (top p + 1)) as [n|] eqn:E; [|reflexivity].
  apply (wf_bwd p W) in E. apply (wf_range p W) in E. lia.
Qed.

Lemma id_returns_binding (p : t) (name : string) :
  obj2id (snd (id name p)) !! name = Some (fst (id name p)).
Proof.
  unfold id. destruct (obj2id p !! name) as [v|] eqn:E; simpl.
  - destruct (id2obj p !! v); simpl; exact E.
  - apply lookup_insert_eq.
Qed.

Lemma id_obj2id (p : t) (name n : string) (v : Z) :
  obj2id p !! n = Some v -> obj2id (snd (id name p)) !! n = Some v.
Proof.
  intros H. unfold id. destruct (obj2id p !! name) as [w|] eqn:E; simpl.
  - destruct (id2obj p !! w); simpl; exact H.
  - rewrite lookup_insert_ne; [exact H | congruence].
Qed.

Lemma id_id2obj (p : t) (name n : string) (v : Z) :
  id2obj p !! v = Some n -> id2obj (snd (id name p)) !! v = Some n.
Proof.
  intros H. unfold id. destruct (obj2id p !! name) as [w|] eqn:E; simpl.
  - destruct (id2obj p !! w) eqn:E'; simpl; [exact H|].
    rewrite lookup_insert_ne; [exact H | congruence].
  - destruct (id2obj p !! (top p + 1)) eqn:E'; simpl; [exact H|].
    rewrite lookup_insert_ne; [exact H | congruence].
Qed.

(** Where a name of the pool after [id] comes from. *)
Lemma id_obj2id_inv (p : t) (name n : string) (v : Z) :
  obj2id (snd (id name p)) !! n = Some v -> obj2id p !! n = Some v \/ n = name.
Proof.
  unfold id. destruct (obj2id p !! name) as [w|] eqn:E; simpl.
  - destruct (id2obj p !! w); simpl; auto.
  - rewrite lookup_insert. case_decide; auto.
Qed.

Lemma id_id2obj_inv (p : t) (name n : string) (v : Z) :
  id2obj (snd (id name p)) !! v = Some n -> id2obj p !! v = Some n \/ n = name.
Proof.
  unfold id. destruct (obj2id p !! name) as [w|] eqn:E; simpl.
  - destruct (id2obj p !! w); simpl; auto.
    rewrite lookup_insert. case_decide; [intros [= <-]|]; auto.
  - destruct (id2obj p !! (top p + 1)); simpl; auto.
    rewrite lookup_insert. case_decide; [intros [= <-]|]; auto.
Qed.

Lemma id_top (p : t) (name : string) : top p <= top (snd (id name p)).
Proof.
  unfold id. destruct (obj2id p !! name) as [w|]; simpl; [|lia].
  destruct (id2obj p !! w); simpl; lia.
Qed.

Lemma wf_id (p : t) (name : string) : wf p -> wf (snd (id name p)).
Proof.
  intros W. destruct (obj2id p !! name) as [v|] eqn:E.
  - now rewrite (id_bound p name v W E).
  - rewrite (id_fresh p name W E). simpl.
    pose proof (wf_top p W). split; simpl.
    + lia.
    + intros n v. rewrite lookup_insert. case_decide.
      * intros [= <-]. lia.
      * intros H'. apply (wf_range p W) in H'. lia.
    + intros n v. rewrite lookup_insert. case_decide.
      * intros [= <-]. subst. apply lookup_insert_eq.
      * intros H'. rewrite lookup_insert_ne; [now apply (wf_fwd p W)|].
        apply (wf_range p W) in H'. lia.
    + intros v n. rewrite lookup_insert. case_decide.
      * intros [= <-]. subst. apply lookup_insert_eq.
      * intros H'. apply (wf_bwd p W) in H'.
        rewrite lookup_insert_ne; [exact H' | congruence].
Qed.

Lemma wf_set_top (p : t) (nv : Z) : wf p -> top p <= nv -> wf (set_top nv p).
Proof.
  intros W H. pose proof (wf_top p W). split; simpl.
  - lia.
  - intros n v Hn. apply (wf_range p W) in Hn. lia.
  - apply (wf_fwd p W).
  - apply (wf_bwd p W).
Qed.

Lemma wf_inj (p : t) (n1 n2 : string) (v : Z) :
  wf p -> obj2id p !! n1 = Some v -> obj2id p !! n2 = Some v -> n1 = n2.
Proof.
  intros W H1 H2. apply (wf_fwd p W) in H1, H2. congruence.
Qed.

Lemma step_wf (p p' : t) : step p p' -> wf p -> wf p'.
Proof. destruct 1; [apply wf_id | intros W; now apply wf_set_top]. Qed.

Lemma step_obj2id (p p' : t) (n : string) (v : Z) :
  step p p' -> obj2id p !! n = Some v -> obj2id p' !! n = Some v.
Proof. destruct 1; [apply id_obj2id | auto]. Qed.

Lemma step_top (p p' : t) : step p p' -> top p <= top p'.
Proof. destruct 1; [apply id_top | assumption]. Qed.

Lemma steps_wf (p p' : t) : rtc step p p' -> wf p -> wf p'.
Proof. induction 1; eauto using step_wf. Qed.

Lemma steps_obj2id (p p' : t) (n : string) (v : Z) :
  rtc step p p' -> obj2id p !! n = Some v -> obj2id p' !! n = Some v.
Proof. induction 1; eauto using step_obj2id. Qed.

Lemma steps_top (p p' : t) : rtc step p p' -> top p <= top p'.
Proof. induction 1; [lia|]. pose proof (step_top _ _ H). lia. Qed.

End PoolFacts.

Lemma vid_run (did rid e : Z) (s : FietSAT) :
  vid did rid e s =
  mkRes [] (inr (fst (IDPool.id (var_name did rid e) (syms s))))
    (mkFietSAT (drivers_info s) (routes_info s)
       (snd (IDPool.id (var_name did rid e) (syms s)))
       (solver s) (problem s) (model s)).
Proof.
  unfold vid, with_syms. now destruct (IDPool.id (var_name did rid e) (syms s)).
Qed.

(** C5: on a well-formed pool, [id] answers the integer already bound to a
    known name and leaves the pool as it is; for a new name it mints a
    positive integer that no earlier call handed out and that no name holds.
    Hence [vid], asked again for the same triple at any later point of the
    run, answers the same integer, and through every later use of the pool a
    binding stays as it is, no integer serves two names, and the integers
    handed out stay handed out. *)
Theorem id_contract (p : IDPool.t) (name : string) :
  IDPool.wf p ->
  (forall v, IDPool.obj2id p !! name = Some v -> IDPool.id name p = (v, p)) /\
  (IDPool.obj2id p !! name = None ->
     exists v p', IDPool.id name p = (v, p') /\
       0 < v /\ ~ IDPool.used p v /\
       (forall n, IDPool.obj2id p !! n <> Some v) /\
       IDPool.obj2id p' !! name = Some v) /\
  (forall did rid e s s1 s2 v,
     syms s = p ->
     vid did rid e s = mkRes [] (inr v) s1 ->
     rtc IDPool.step (syms s1) (syms s2) ->
     vid did rid e s2 = mkRes [] (inr v) s2) /\
  (forall p', rtc IDPool.step p p' ->
     (forall n v, IDPool.obj2id p !! n = Some v -> IDPool.obj2id p' !! n = Some v) /\
     (forall n1 n2 v, IDPool.obj2id p' !! n1 = Some v ->
                      IDPool.obj2id p' !! n2 = Some v -> n1 = n2) /\
     (forall v, IDPool.used p v -> IDPool.used p' v)).
Proof.
  intros W. repeat split.
  - intros v. now apply PoolFacts.id_bound.
  - intros Hnew. rewrite (PoolFacts.id_fresh p name W Hnew).
    pose proof (IDPool.wf_top p W) as Ht.
    eexists _, _. split; [reflexivity|]. simpl. repeat split.
    + lia.
    + unfold IDPool.used. lia.
    + intros n Hn. apply (IDPool.wf_range p W) in Hn. lia.
    + apply lookup_insert_eq.
  - intros did rid e s s1 s2 v <- Hrun Hsteps.
    rewrite vid_run in Hrun. injection Hrun as Hv Hs1.
    assert (W1 : IDPool.wf (syms s1)) by (subst s1; simpl; now apply PoolFacts.wf_id).
    assert (B1 : IDPool.obj2id (syms s1) !! var_name did rid e = Some v)
      by (subst s1 v; simpl; apply PoolFacts.id_returns_binding).
    pose proof (PoolFacts.steps_wf _ _ Hsteps W1) as W2.
    pose proof (PoolFacts.steps_obj2id _ _ _ _ Hsteps B1) as B2.
    rewrite vid_run, (PoolFacts.id_bound _ _ _ W2 B2). simpl. now destruct s2.
  - intros n v. now apply PoolFacts.steps_obj2id.
  - intros n1 n2 v. apply PoolFacts.wf_inj. now apply (PoolFacts.steps_wf p).
  - destruct H0. lia.
  - destruct H0. pose proof (PoolFacts.steps_top _ _ H). lia.
Qed.

Lemma id_contract_witness :
  IDPool.wf IDPool.empty /\
  exists v p', IDPool.id (var_name 1 1 4) IDPool.empty = (v, p') /\
    0 < v /\ ~ IDPool.used IDPool.empty v /\
    (forall n, IDPool.obj2id IDPool.empty !! n <> Some v) /\
    IDPool.obj2id p' !! var_name 1 1 4 = Some v.
Proof.
  split; [exact PoolFacts.wf_empty|].
  apply (proj1 (proj2 (id_contract IDPool.empty (var_name 1 1 4) PoolFacts.wf_empty))).
  reflexivity.
Defined.

(** ** Reasoning about methods *)

Section WpRules.

Lemma wp_ret {A} (a : A) s (Q : A -> FietSAT -> Prop) : Q a s -> wp (ret a) s Q.
Proof. intros H. exists a, s. auto. Qed.

Lemma wp_get {A} (f : FietSAT -> A) s (Q : A -> FietSAT -> Prop) :
  Q (f s) s -> wp (get f) s Q.
Proof. intros H. exists (f s), s. auto. Qed.

Lemma wp_bind {A B} (m : M A) (k : A -> M B) s (Q : B -> FietSAT -> Prop) :
  wp m s (fun a s1 => wp (k a) s1 Q) -> wp (bind m k) s Q.
Proof.
  intros (a & s1 & Hm & b & s2 & Hk & HQ). exists b, s2. split; [|exact HQ].
  unfold bind. rewrite Hm. simpl. rewrite Hk. reflexivity.
Qed.

Lemma wp_mono {A} (m : M A) s (Q Q' : A -> FietSAT -> Prop) :
  wp m s Q -> (forall a s', Q a s' -> Q' a s') -> wp m s Q'.
Proof. intros (a & s' & Hm & HQ) H. exists a, s'. auto. Qed.

Lemma wp_lookup {V} (k : Z) (d : pydict V) (v : V) s (Q : V -> FietSAT -> Prop) :
  dict_get k d = Some v -> Q v s -> wp (lookup_or_raise k d) s Q.
Proof. intros Hg HQ. unfold lookup_or_raise. rewrite Hg. now apply wp_ret. Qed.

Lemma wp_run {A} (m : M A) s (Q : A -> FietSAT -> Prop) :
  wp m s Q -> exists a, val (m s) = inr a /\ out (m s) = [] /\ Q a (st (m s)).
Proof. intros (a & s' & -> & HQ). exists a. auto. Qed.

End WpRules.

Lemma Forall2_flat_map_concat {A B C} (Q : B -> C -> Prop) (f : A -> list B)
    (xs : list A) (yss : list (list C)) :
  Forall2 (fun x ys => Forall2 Q (f x) ys) xs yss ->
  Forall2 Q (flat_map f xs) (concat yss).
Proof.
  induction 1; simpl; [constructor|]. now apply Forall2_app.
Qed.

Lemma Forall2_In_l {A B} (P : A -> B -> Prop) (xs : list A) (ys : list B) (x : A) :
  Forall2 P xs ys -> In x xs -> exists y, In y ys /\ P x y.
Proof.
  induction 1 as [|a b xs ys H _ IH]; simpl; [contradiction|].
  intros [<-|Hin]; [eauto|]. destruct (IH Hin) as (y & Hy & Hp). eauto.
Qed.

Lemma Forall2_In_r {A B} (P : A -> B -> Prop) (xs : list A) (ys : list B) (y : B) :
  Forall2 P xs ys -> In y ys -> exists x, In x xs /\ P x y.
Proof.
  induction 1 as [|a b xs ys H _ IH]; simpl; [contradiction|].
  intros [<-|Hin]; [eauto|]. destruct (IH Hin) as (x & Hx & Hp). eauto.
Qed.

Lemma range_In (a b e : Z) : In e (range a b) <-> a <= e < b.
Proof.
  unfold range. rewrite List.in_map_iff. split.
  - intros (i & <- & Hi). apply List.in_seq in Hi. lia.
  - intros H. exists (Z.to_nat (e - a)). split; [lia|]. apply List.in_seq. lia.
Qed.

(** ** [formulate] *)

Section FormulateFacts.

Variable atmost : list Z -> Z -> formula * Z.
Variable equals : list Z -> Z -> formula * Z.

Abbreviation fstep := (fstep atmost equals).
Abbreviation ext := (ext atmost equals).
Abbreviation CardEnc_atmost := (CardEnc_atmost atmost).
Abbreviation CardEnc_equals := (CardEnc_equals equals).
Abbreviation c1_for := (c1_for atmost).
Abbreviation c2_for := (c2_for atmost).
Abbreviation c3_for := (c3_for equals).
Abbreviation formulate := (formulate atmost equals).

Lemma ext_refl s : ext s s.
Proof. repeat split; constructor. Qed.

Lemma ext_trans s1 s2 s3 : ext s1 s2 -> ext s2 s3 -> ext s1 s3.
Proof.
  intros (Hd & Hr & Hs & Hm & Hp) (Hd' & Hr' & Hs' & Hm' & Hp').
  repeat split; try congruence.
  rewrite Hd, Hr in Hp'. now transitivity (syms s2).
Qed.

Lemma fstep_obj2id di ri p p' n v :
  fstep di ri p p' -> IDPool.obj2id p !! n = Some v -> IDPool.obj2id p' !! n = Some v.
Proof. destruct 1; simpl; auto. apply PoolFacts.id_obj2id. Qed.

Lemma fsteps_obj2id di ri p p' n v :
  rtc (fstep di ri) p p' ->
  IDPool.obj2id p !! n = Some v -> IDPool.obj2id p' !! n = Some v.
Proof. induction 1; eauto using fstep_obj2id. Qed.

Lemma fstep_id2obj di ri p p' n v :
  fstep di ri p p' -> IDPool.id2obj p !! v = Some n -> IDPool.id2obj p' !! v = Some n.
Proof. destruct 1; simpl; auto. apply PoolFacts.id_id2obj. Qed.

Lemma fsteps_id2obj di ri p p' n v :
  rtc (fstep di ri) p p' ->
  IDPool.id2obj p !! v = Some n -> IDPool.id2obj p' !! v = Some n.
Proof. induction 1; eauto using fstep_id2obj. Qed.

Lemma ext_bound s s' t v : ext s s' -> bound (syms s) t v -> bound (syms s') t v.
Proof.
  intros (_ & _ & _ & _ & Hp). destruct t as [[d r] e]. simpl.
  now apply fsteps_obj2id with (1 := Hp).
Qed.

Lemma wp_vid (did rid e : Z) s :
  eligible (drivers_info s) (routes_info s) did rid ->
  wp (vid did rid e) s (fun v s' => ext s s' /\ bound (syms s') (did, rid, e) v).
Proof.
  intros He. eexists _, _. split; [apply vid_run|]. split.
  - repeat split; simpl. apply rtc_once. now constructor.
  - simpl. apply PoolFacts.id_returns_binding.
Qed.

Lemma wp_atmost (lits : list Z) s :
  wp (CardEnc_atmost lits) s
     (fun f s' => ext s s' /\ f = fst (atmost lits (IDPool.top (syms s)))).
Proof.
  unfold wp, CardEnc_atmost, with_syms. cbv beta.
  pose proof (fstep_atmost atmost equals (drivers_info s) (routes_info s) lits (syms s)) as H.
  destruct (atmost lits (IDPool.top (syms s))) as [cls nv].
  eexists _, _. split; [reflexivity|]. split; [|reflexivity].
  repeat split; simpl. now apply rtc_once.
Qed.

Lemma wp_equals (lits : list Z) s :
  wp (CardEnc_equals lits) s
     (fun f s' => ext s s' /\ f = fst (equals lits (IDPool.top (syms s)))).
Proof.
  unfold wp, CardEnc_equals, with_syms. cbv beta.
  pose proof (fstep_equals atmost equals (drivers_info s) (routes_info s) lits (syms s)) as H.
  destruct (equals lits (IDPool.top (syms s))) as [cls nv].
  eexists _, _. split; [reflexivity|]. split; [|reflexivity].
  repeat split; simpl. now apply rtc_once.
Qed.

Lemma wp_routes_of (did : Z) (dr : Driver) s (Q : list Z -> FietSAT -> Prop) :
  dict_get did (drivers_info s) = Some dr ->
  Q (d_routes dr) s -> wp (routes_of did) s Q.
Proof.
  intros Hg HQ. unfold routes_of. apply wp_bind, wp_get.
  apply wp_bind. eapply wp_lookup; [exact Hg|]. now apply wp_ret.
Qed.

Lemma wp_exp (did : Z) (dr : Driver) s (Q : Z -> FietSAT -> Prop) :
  dict_get did (drivers_info s) = Some dr ->
  Q (d_exp dr) s -> wp (exp did) s Q.
Proof.
  intros Hg HQ. unfold exp. apply wp_bind, wp_get.
  apply wp_bind. eapply wp_lookup; [exact Hg|]. now apply wp_ret.
Qed.

Lemma wp_drivers_of (rid : Z) (rt : Route) s (Q : list Z -> FietSAT -> Prop) :
  dict_get rid (routes_info s) = Some rt ->
  Q (r_drivers rt) s -> wp (drivers_of rid) s Q.
Proof.
  intros Hg HQ. unfold drivers_of. apply wp_bind, wp_get.
  apply wp_bind. eapply wp_lookup; [exact Hg|]. now apply wp_ret.
Qed.

(** The rule of comprehensions: each element's result satisfies a
    postcondition that later uses of the pool do not disturb. *)
Lemma wp_forM {A B} (P : A -> B -> FietSAT -> Prop) (xs : list A) (body : A -> M B) :
  (forall x y s1 s2, P x y s1 -> ext s1 s2 -> P x y s2) ->
  forall s,
  (forall x s1, In x xs -> ext s s1 ->
     wp (body x) s1 (fun y s2 => ext s1 s2 /\ P x y s2)) ->
  wp (forM xs body) s (fun ys s' => ext s s' /\ Forall2 (fun x y => P x y s') xs ys).
Proof.
  intros Hstable. induction xs as [|x xs IH]; intros s Hbody; simpl.
  - apply wp_ret. split; [apply ext_refl | constructor].
  - apply wp_bind.
    eapply wp_mono; [apply Hbody; [now left | apply ext_refl]|].
    intros y s1 [He1 Hp1]. apply wp_bind.
    eapply wp_mono; [apply IH|].
    + intros x' s2 Hin He2. apply Hbody; [now right | eapply ext_trans; eauto].
    + intros ys s2 [He2 Hall]. apply wp_ret. split; [eapply ext_trans; eauto|].
      constructor; [eapply Hstable; eauto | exact Hall].
Qed.

Lemma wp_forM_flat {A B} (P : A -> list B -> FietSAT -> Prop) (xs : list A)
    (inner : A -> M (list B)) :
  (forall x y s1 s2, P x y s1 -> ext s1 s2 -> P x y s2) ->
  forall s,
  (forall x s1, In x xs -> ext s s1 ->
     wp (inner x) s1 (fun y s2 => ext s1 s2 /\ P x y s2)) ->
  wp (forM_flat xs inner) s
     (fun ys s' => ext s s' /\
        exists yss, ys = concat yss /\ Forall2 (fun x y => P x y s') xs yss).
Proof.
  intros Hstable s Hbody. unfold forM_flat. apply wp_bind.
  eapply wp_mono; [exact (wp_forM P xs inner Hstable s Hbody)|].
  intros yss s' [He Hall]. apply wp_ret. eauto.
Qed.

Lemma ext_drivers s s' : ext s s' -> drivers_info s' = drivers_info s.
Proof. now intros (H & _). Qed.

Lemma ext_routes s s' : ext s s' -> routes_info s' = routes_info s.
Proof. now intros (_ & H & _). Qed.

Lemma wp_vids (did rid : Z) (es : list Z) s :
  eligible (drivers_info s) (routes_info s) did rid ->
  wp (forM es (fun e => vid did rid e)) s
     (fun vs s' => ext s s' /\
        Forall2 (fun e v => bound (syms s') (did, rid, e) v) es vs).
Proof.
  intros He.
  apply (wp_forM (fun e v s' => bound (syms s') (did, rid, e) v)).
  - intros e v s1 s2 Hb Hx. eapply ext_bound; eauto.
  - intros e s1 _ Hx. apply wp_vid.
    now rewrite (ext_drivers _ _ Hx), (ext_routes _ _ Hx).
Qed.

Lemma wp_c1_for (did : Z) (dr : Driver) s :
  dict_get did (drivers_info s) = Some dr ->
  wp (c1_for did) s (fun _ s' => ext s s' /\
    forall rid e, In rid (d_routes dr) -> In e range_4_0 ->
      exists v, bound (syms s') (did, rid, e) v).
Proof.
  intros Hg. unfold c1_for. apply wp_bind.
  eapply wp_routes_of; [exact Hg|].
  eapply wp_mono;
    [apply (wp_forM (fun rid (_ : formula) s' =>
              forall e, In e range_4_0 -> exists v, bound (syms s') (did, rid, e) v))|].
  - intros rid _ s1 s2 H Hx e He. destruct (H e He) as [v Hv].
    exists v. eapply ext_bound; eauto.
  - intros rid s1 Hin Hx. apply wp_bind.
    eapply wp_mono; [apply wp_vids|].
    + left. exists dr. now rewrite (ext_drivers _ _ Hx).
    + intros lits s2 [Hx2 Hall]. eapply wp_mono; [apply wp_atmost|].
      intros f s3 [Hx3 _]. split; [eapply ext_trans; eauto|].
      intros e He. destruct (Forall2_In_l _ _ _ _ Hall He) as (v & _ & Hv).
      exists v. eapply ext_bound; eauto.
  - intros fs s' [Hx Hall]. split; [exact Hx|].
    intros rid e Hr He. destruct (Forall2_In_l _ _ _ _ Hall Hr) as (f & _ & H). auto.
Qed.

Lemma wp_c2_for (did : Z) (dr : Driver) s :
  dict_get did (drivers_info s) = Some dr ->
  wp (c2_for did) s (fun _ s' => ext s s').
Proof.
  intros Hg. unfold c2_for. apply wp_bind, wp_bind.
  eapply wp_routes_of; [exact Hg|].
  eapply wp_mono; [apply (wp_forM_flat (fun _ _ _ => True))|].
  - auto.
  - intros rid s1 Hin Hx. eapply wp_mono; [apply wp_vids|].
    + left. exists dr. now rewrite (ext_drivers _ _ Hx).
    + intros vs s2 [Hx2 _]. auto.
  - intros lits s1 [Hx _]. eapply wp_mono; [apply wp_atmost|].
    intros f s2 [Hx2 _]. eapply ext_trans; eauto.
Qed.

Lemma wp_c3_for (rid : Z) (rt : Route) s :
  dict_get rid (routes_info s) = Some rt ->
  wp (c3_for rid) s (fun _ s' => ext s s').
Proof.
  intros Hg. unfold c3_for.
  eapply wp_mono; [apply (wp_forM (fun _ _ _ => True))|].
  - auto.
  - intros e s1 _ Hx. apply wp_bind, wp_bind.
    eapply wp_drivers_of; [rewrite (ext_routes _ _ Hx); exact Hg|].
    eapply wp_mono; [apply (wp_forM (fun _ _ _ => True))|].
    + auto.
    + intros did s2 Hin Hx2. eapply wp_mono; [apply wp_vid|].
      * right. exists rt.
        now rewrite (ext_routes _ _ Hx2), (ext_routes _ _ Hx).
      * intros v s3 [Hx3 _]. auto.
    + intros lits s2 [Hx2 _]. eapply wp_mono; [apply wp_equals|].
      intros f s3 [Hx3 _]. split; [eapply ext_trans; eauto | exact I].
  - intros fs s' [Hx _]. exact Hx.
Qed.

Lemma wp_c4_for (did : Z) (dr : Driver) s :
  dict_get did (drivers_info s) = Some dr ->
  wp (c4_for did) s (fun fs s' => ext s s' /\
    Forall2 (fun t f => exists v, bound (syms s') t v /\ f = [[- v]])
            (c4_triples_of did dr) fs).
Proof.
  intros Hg. unfold c4_for. apply wp_bind.
  eapply wp_routes_of; [exact Hg|].
  eapply wp_mono;
    [apply (wp_forM_flat (fun rid fs s' =>
       Forall2 (fun t f => exists v, bound (syms s') t v /\ f = [[- v]])
               (map (fun e => (did, rid, e)) (range (d_exp dr + 1) 5)) fs))|].
  - intros rid fs s1 s2 H Hx. eapply List.Forall2_impl; [|exact H].
    intros t f (v & Hb & ->). exists v. split; [eapply ext_bound; eauto | reflexivity].
  - intros rid s1 Hin Hx. apply wp_bind.
    eapply wp_exp; [rewrite (ext_drivers _ _ Hx); exact Hg|].
    eapply wp_mono;
      [apply (wp_forM (fun e f s' => exists v, bound (syms s') (did, rid, e) v /\ f = [[- v]]))|].
    + intros e f s2 s3 (v & Hb & ->) Hx3. exists v.
      split; [eapply ext_bound; eauto | reflexivity].
    + intros e s2 _ Hx2. apply wp_bind. eapply wp_mono; [apply wp_vid|].
      * left. exists dr.
        now rewrite (ext_drivers _ _ Hx2), (ext_drivers _ _ Hx).
      * intros v s3 [Hx3 Hb]. apply wp_ret. eauto.
    + intros fs s2 [Hx2 Hall]. split; [exact Hx2|].
      now apply Forall2_fmap_l.
  - intros fs s' (Hx & yss & -> & Hall). split; [exact Hx|].
    now apply Forall2_flat_map_concat.
Qed.

Lemma dict_key_get {V} (k : Z) (d : pydict V) :
  In k (dict_keys d) -> exists v, dict_get k d = Some v.
Proof.
  intros H. apply dict_get_keys in H. destruct (dict_get k d); [eauto | congruence].
Qed.

Lemma wp_set_problem (pr : list (list formula)) s (Q : unit -> FietSAT -> Prop) :
  Q tt (mkFietSAT (drivers_info s) (routes_info s) (syms s) (solver s) pr (model s)) ->
  wp (set_problem pr) s Q.
Proof. intros H. eexists _, _. split; [reflexivity | exact H]. Qed.

(** [formulate] always returns: it prints nothing and raises nothing, it
    uses the pool only through [vid] on eligible pairs and through the
    encoder, it binds the variable of every (driver, route of the driver,
    level 1..4), and its fourth group is the list of negated unit formulas
    of [c4_triples]. *)
Lemma formulate_spec s :
  wp formulate s (fun cs s' =>
    let '(c_1, c_2, c_3, c_4) := cs in
    ext s s' /\
    problem s' = [c_1; c_2; c_3; c_4] /\
    (forall d dr r e,
       dict_get d (drivers_info s) = Some dr -> In r (d_routes dr) -> In e range_4_0 ->
       exists v, bound (syms s') (d, r, e) v) /\
    Forall2 (fun t f => exists v, bound (syms s') t v /\ f = [[- v]])
            (c4_triples (drivers_info s)) c_4).
Proof.
  unfold formulate.
  (* first group *)
  apply wp_bind, wp_bind, wp_get.
  eapply wp_mono;
    [apply (wp_forM_flat (fun did (_ : list formula) s' =>
       forall dr rid e, dict_get did (drivers_info s) = Some dr ->
         In rid (d_routes dr) -> In e range_4_0 ->
         exists v, bound (syms s') (did, rid, e) v))|].
  { intros did _ s1 s2 H Hx dr rid e Hg Hr He.
    destruct (H dr rid e Hg Hr He) as [v Hv]. exists v. eapply ext_bound; eauto. }
  { intros did s1 Hin Hx. destruct (dict_key_get _ _ Hin) as [dr Hg].
    eapply wp_mono; [apply (wp_c1_for did dr); now rewrite (ext_drivers _ _ Hx)|].
    intros fs s2 [Hx2 H]. split; [exact Hx2|].
    intros dr' rid e Hg'. rewrite Hg in Hg'. injection Hg' as <-. apply H. }
  intros c_1 s1 (Hx1 & yss1 & _ & Hall1).
  (* second group *)
  apply wp_bind, wp_bind, wp_get.
  eapply wp_mono; [apply (wp_forM (fun _ _ _ => True))|].
  { auto. }
  { intros did s2 Hin Hx. destruct (dict_key_get _ _ Hin) as [dr Hg].
    eapply wp_mono; [apply (wp_c2_for did dr); now rewrite (ext_drivers _ _ Hx)|].
    intros f s3 Hx3. auto. }
  intros c_2 s2 (Hx2 & _).
  (* third group *)
  apply wp_bind, wp_bind, wp_get.
  eapply wp_mono; [apply (wp_forM_flat (fun _ _ _ => True))|].
  { auto. }
  { intros rid s3 Hin Hx. destruct (dict_key_get _ _ Hin) as [rt Hg].
    eapply wp_mono; [apply (wp_c3_for rid rt); now rewrite (ext_routes _ _ Hx)|].
    intros f s4 Hx4. auto. }
  intros c_3 s3 (Hx3 & _).
  (* fourth group *)
  apply wp_bind, wp_bind, wp_get.
  eapply wp_mono;
    [apply (wp_forM_flat (fun did fs s' =>
       Forall2 (fun t f => exists v, bound (syms s') t v /\ f = [[- v]])
         (match dict_get did (drivers_info s) with
          | Some dr => c4_triples_of did dr
          | None => []
          end) fs))|].
  { intros did fs s4 s5 H Hx. eapply List.Forall2_impl; [|exact H].
    intros t f (v & Hb & ->). exists v. split; [eapply ext_bound; eauto | reflexivity]. }
  { intros did s4 Hin Hx. destruct (dict_key_get _ _ Hin) as [dr Hg].
    eapply wp_mono; [apply (wp_c4_for did dr); now rewrite (ext_drivers _ _ Hx)|].
    intros fs s5 [Hx5 H]. split; [exact Hx5|].
    assert (Hs : drivers_info s3 = drivers_info s).
    { rewrite (ext_drivers _ _ Hx3), (ext_drivers _ _ Hx2). apply (ext_drivers _ _ Hx1). }
    rewrite <- Hs, Hg. exact H. }
  intros c_4 s4 (Hx4 & yss4 & -> & Hall4).
  apply wp_bind, wp_set_problem, wp_ret.
  assert (Hx : ext s s4) by (repeat (eapply ext_trans; [eassumption|]); apply ext_refl).
  assert (Hs3 : drivers_info s3 = drivers_info s).
  { rewrite (ext_drivers _ _ Hx3), (ext_drivers _ _ Hx2). apply (ext_drivers _ _ Hx1). }
  split; [|split; [reflexivity|split]].
  - destruct Hx as (? & ? & ? & ? & ?). repeat split; assumption.
  - simpl. intros d dr r e Hg Hr He.
    assert (Hin : In d (dict_keys (drivers_info s))) by (apply dict_get_keys; congruence).
    destruct (Forall2_In_l _ _ _ _ Hall1 Hin) as (y & _ & H).
    destruct (H dr r e Hg Hr He) as [v Hv]. exists v.
    apply (ext_bound s1 s4 (d, r, e) v); [|exact Hv].
    repeat (eapply ext_trans; [eassumption|]); apply ext_refl.
  - simpl. unfold c4_triples. apply Forall2_flat_map_concat.
    rewrite Hs3 in Hall4. exact Hall4.
Qed.

Lemma c4_triples_In (di : pydict Driver) (d r e : Z) :
  In (d, r, e) (c4_triples di) <->
  exists dr, dict_get d di = Some dr /\ In r (d_routes dr) /\ d_exp dr < e <= 4.
Proof.
  unfold c4_triples. rewrite List.in_flat_map. split.
  - intros (did & Hin & H). destruct (dict_get did di) as [dr|] eqn:Hg; [|contradiction].
    unfold c4_triples_of in H. apply List.in_flat_map in H as (rid & Hr & H).
    apply List.in_map_iff in H as (e' & [= <- <- <-] & He).
    apply range_In in He. exists dr. repeat split; auto; lia.
  - intros (dr & Hg & Hr & He). exists d. split; [apply dict_get_keys; congruence|].
    rewrite Hg. unfold c4_triples_of. apply List.in_flat_map. exists r. split; [exact Hr|].
    apply List.in_map_iff. exists e. split; [reflexivity | apply range_In; lia].
Qed.

(** C2: [formulate] returns, and its fourth group consists of one
    single-clause formula per driver [d], route [r] of [d]'s list and level
    [e] with [exp(d) < e <= 4], namely the unit clause with the negative
    literal of the variable of [(d, r, e)]; the group holds nothing else. *)
Theorem formulate_ceiling s :
  exists c_1 c_2 c_3 c_4 s',
    formulate s = mkRes [] (inr (c_1, c_2, c_3, c_4)) s' /\
    (forall d dr r e,
       dict_get d (drivers_info s) = Some dr -> In r (d_routes dr) ->
       d_exp dr < e <= 4 ->
       exists v, bound (syms s') (d, r, e) v /\ In [[- v]] c_4) /\
    (forall f, In f c_4 ->
       exists d dr r e v,
         dict_get d (drivers_info s) = Some dr /\ In r (d_routes dr) /\
         d_exp dr < e <= 4 /\
         bound (syms s') (d, r, e) v /\ f = [[- v]]).
Proof.
  destruct (formulate_spec s) as ([[[c_1 c_2] c_3] c_4] & s' & Hrun & _ & _ & _ & H4).
  exists c_1, c_2, c_3, c_4, s'. split; [exact Hrun|]. split.
  - intros d dr r e Hg Hr He.
    assert (Hin : In (d, r, e) (c4_triples (drivers_info s)))
      by (apply c4_triples_In; eauto).
    destruct (Forall2_In_l _ _ _ _ H4 Hin) as (f & Hf & v & Hb & ->). eauto.
  - intros f Hf.
    destruct (Forall2_In_r _ _ _ _ H4 Hf) as ([[d r] e] & Hin & v & Hb & ->).
    apply c4_triples_In in Hin as (dr & Hg & Hr & He).
    exists d, dr, r, e, v. auto.
Qed.

(** *** The pool through [formulate] *)

Lemma fstep_names di ri p p' n v :
  fstep di ri p p' -> IDPool.obj2id p' !! n = Some v ->
  IDPool.obj2id p !! n = Some v \/
  exists d r e, n = var_name d r e /\ eligible di ri d r.
Proof.
  destruct 1 as [d r e p He| |]; simpl; auto.
  intros H. apply PoolFacts.id_obj2id_inv in H as [H| ->]; eauto 6.
Qed.

Lemma fsteps_names di ri p p' n v :
  rtc (fstep di ri) p p' -> IDPool.obj2id p' !! n = Some v ->
  IDPool.obj2id p !! n = Some v \/
  exists d r e, n = var_name d r e /\ eligible di ri d r.
Proof.
  induction 1 as [|p p1 p2 Hs _ IH]; [auto|].
  intros H. destruct (IH H) as [H1|H1]; [|auto].
  eapply fstep_names; eauto.
Qed.

Lemma fstep_objs di ri p p' n v :
  fstep di ri p p' -> IDPool.id2obj p' !! v = Some n ->
  IDPool.id2obj p !! v = Some n \/
  exists d r e, n = var_name d r e /\ eligible di ri d r.
Proof.
  destruct 1 as [d r e p He| |]; simpl; auto.
  intros H. apply PoolFacts.id_id2obj_inv in H as [H| ->]; eauto 6.
Qed.

Lemma fsteps_objs di ri p p' n v :
  rtc (fstep di ri) p p' -> IDPool.id2obj p' !! v = Some n ->
  IDPool.id2obj p !! v = Some n \/
  exists d r e, n = var_name d r e /\ eligible di ri d r.
Proof.
  induction 1 as [|p p1 p2 Hs _ IH]; [auto|].
  intros H. destruct (IH H) as [H1|H1]; [|auto].
  eapply fstep_objs; eauto.
Qed.

Lemma init_inr ds rs s :
  init ds rs = inr s ->
  parse ds rs = inr (drivers_info s, routes_info s) /\
  syms s = IDPool.empty /\ solver s = [] /\ problem s = [] /\ model s = [].
Proof.
  unfold init. destruct (parse ds rs) as [e|[di ri]]; [discriminate|].
  intros [= <-]. simpl. auto.
Qed.

(** C7: take the object built from the two files and a driver of it whose
    routes list is empty, and an at-most-one encoder that has no clause to
    give for no literals. The driver's share of the first and of the fourth
    group is empty, its bundle in the second group is empty, no route lists
    the driver, so the third group has no literal of it, and after
    [formulate] the pool holds no variable of the driver at all. *)
Theorem idle_driver_unconstrained ds rs s did dr :
  (forall top, fst (atmost [] top) = []) ->
  init ds rs = inr s ->
  dict_get did (drivers_info s) = Some dr ->
  d_routes dr = [] ->
  (forall s1, drivers_info s1 = drivers_info s ->
     c1_for did s1 = mkRes [] (inr []) s1 /\
     (val (c2_for did s1) = inr [] /\ out (c2_for did s1) = []) /\
     c4_for did s1 = mkRes [] (inr []) s1) /\
  (forall rid rt, dict_get rid (routes_info s) = Some rt -> ~ In did (r_drivers rt)) /\
  exists cs s',
    formulate s = mkRes [] (inr cs) s' /\
    forall r e, IDPool.obj2id (syms s') !! var_name did r e = None.
Proof.
  intros Hnil Hinit Hg Hr.
  apply init_inr in Hinit as (Hp & Hsyms & _).
  assert (Hno : forall rid rt,
    dict_get rid (routes_info s) = Some rt -> ~ In did (r_drivers rt)).
  { intros rid rt Hrt Hin.
    destruct (parse_drivers_list _ _ _ _ _ _ Hp Hrt) as [_ Hl].
    rewrite Hl in Hin. apply inverse_of_In in Hin as (_ & dr' & Hg' & Hin).
    rewrite Hg in Hg'. injection Hg' as <-. now rewrite Hr in Hin. }
  split; [|split; [exact Hno|]].
  - intros s1 Hs1. rewrite <- Hs1 in Hg. split; [|split].
    + unfold c1_for, routes_of, bind, get, lookup_or_raise. simpl.
      rewrite Hg. simpl. rewrite Hr. reflexivity.
    + unfold c2_for, routes_of, forM_flat, bind, get, lookup_or_raise. simpl.
      rewrite Hg. simpl. rewrite Hr. simpl.
      unfold CardEnc_atmost, with_syms.
      specialize (Hnil (IDPool.top (syms s1))).
      destruct (atmost [] (IDPool.top (syms s1))) as [cls nv]. simpl in *.
      now subst cls.
    + unfold c4_for, routes_of, forM_flat, bind, get, lookup_or_raise. simpl.
      rewrite Hg. simpl. rewrite Hr. reflexivity.
  - destruct (formulate_spec s) as ([[[c_1 c_2] c_3] c_4] & s' & Hrun & Hx & _).
    exists (c_1, c_2, c_3, c_4), s'. split; [exact Hrun|].
    destruct Hx as (_ & _ & _ & _ & Hsteps).
    intros r e. destruct (IDPool.obj2id (syms s') !! var_name did r e) as [v|] eqn:E;
      [exfalso|reflexivity].
    destruct (fsteps_names _ _ _ _ _ _ Hsteps E) as [H0|(d' & r' & e' & Hn & He)].
    + rewrite Hsyms in H0. simpl in H0. now rewrite lookup_empty in H0.
    + apply PyFacts.var_name_inj in Hn as (<- & <- & <-).
      destruct He as [(dr' & Hg' & Hin)|(rt & Hrt & Hin)].
      * rewrite Hg in Hg'. injection Hg' as <-. now rewrite Hr in Hin.
      * exact (Hno _ _ Hrt Hin).
Qed.

Section FreshAuxiliaries.

(** The encoder takes its auxiliary variables above the counter. *)
Hypothesis atmost_top : forall lits top, top <= snd (atmost lits top).
Hypothesis equals_top : forall lits top, top <= snd (equals lits top).

Lemma fstep_step di ri p p' : fstep di ri p p' -> IDPool.step p p'.
Proof. destruct 1; constructor; auto. Qed.

Lemma fsteps_steps di ri p p' : rtc (fstep di ri) p p' -> rtc IDPool.step p p'.
Proof. induction 1; [constructor | econstructor; eauto using fstep_step]. Qed.

Lemma ext_wf s s' : ext s s' -> IDPool.wf (syms s) -> IDPool.wf (syms s').
Proof.
  intros (_ & _ & _ & _ & H). apply PoolFacts.steps_wf. eapply fsteps_steps; eauto.
Qed.

Lemma decode_var_name (d r e : Z) s :
  decode_name (var_name d r e) s = mkRes [] (inr (d, r, e)) s.
Proof. unfold decode_name. now rewrite PyFacts.ints_var_name. Qed.

(** C4: let the encoder take its auxiliary variables above the counter
    and let the pool be well formed, as it is after construction. Then
    [formulate] returns, it has minted the variable of every driver,
    route of the driver and level 1..4, and every triple that has a
    variable [v] in the pool decodes back: [vid] answers [v] for it,
    [obj v] answers its name, and splitting and parsing that name gives
    the same driver, route and level. *)
Theorem vid_roundtrip s :
  IDPool.wf (syms s) ->
  exists cs s',
    formulate s = mkRes [] (inr cs) s' /\
    (forall d dr r e,
       dict_get d (drivers_info s) = Some dr -> In r (d_routes dr) ->
       1 <= e <= 4 ->
       exists v, bound (syms s') (d, r, e) v) /\
    (forall d r e v,
       bound (syms s') (d, r, e) v ->
       vid d r e s' = mkRes [] (inr v) s' /\
       obj v s' = mkRes [] (inr (Some (var_name d r e))) s' /\
       decode_name (var_name d r e) s' = mkRes [] (inr (d, r, e)) s').
Proof.
  intros W.
  destruct (formulate_spec s) as ([[[c_1 c_2] c_3] c_4] & s' & Hrun & Hx & _ & Hm & _).
  exists (c_1, c_2, c_3, c_4), s'. split; [exact Hrun|].
  pose proof (ext_wf _ _ Hx W) as W'. split.
  - intros d dr r e Hg Hr He. apply (Hm d dr r e Hg Hr).
    simpl. lia.
  - intros d r e v Hb. simpl in Hb. split; [|split].
    + rewrite vid_run, (PoolFacts.id_bound _ _ _ W' Hb). simpl. now destruct s'.
    + unfold obj, bind, get, ret, IDPool.obj. simpl.
      now rewrite (IDPool.wf_fwd _ W' _ _ Hb).
    + apply decode_var_name.
Qed.

End FreshAuxiliaries.

End FormulateFacts.

Lemma sample_init : init Sample.drivers_json Sample.routes_json = inr Sample.app.
Proof. reflexivity. Qed.

Lemma vid_roundtrip_witness :
  exists cs s',
    formulate Sample.atmost Sample.equals Sample.app = mkRes [] (inr cs) s' /\
    (forall d dr r e,
       dict_get d (drivers_info Sample.app) = Some dr -> In r (d_routes dr) ->
       1 <= e <= 4 ->
       exists v, bound (syms s') (d, r, e) v) /\
    (forall d r e v,
       bound (syms s') (d, r, e) v ->
       vid d r e s' = mkRes [] (inr v) s' /\
       obj v s' = mkRes [] (inr (Some (var_name d r e))) s' /\
       decode_name (var_name d r e) s' = mkRes [] (inr (d, r, e)) s').
Proof.
  apply (vid_roundtrip Sample.atmost Sample.equals).
  - intros lits top. simpl. lia.
  - intros lits top. simpl. lia.
  - exact PoolFacts.wf_empty.
Defined.

Lemma idle_driver_unconstrained_witness :
  exists cs s',
    formulate Sample.atmost Sample.equals Sample.app = mkRes [] (inr cs) s' /\
    forall r e, IDPool.obj2id (syms s') !! var_name 3 r e = None.
Proof.
  refine (proj2 (proj2 (idle_driver_unconstrained Sample.atmost Sample.equals
    Sample.drivers_json Sample.routes_json Sample.app 3 (mkDriver 3 "Cy" 2 [])
    _ _ _ _))).
  - intros top. reflexivity.
  - reflexivity.
  - reflexivity.
  - reflexivity.
Defined.

(** ** [report] *)

Section ReportFacts.

Variable now : string.

Abbreviation report := (report now).

Lemma record_lit_frame sol lit s :
  out (record_lit sol lit s) = [] /\ st (record_lit sol lit s) = s.
Proof.
  unfold record_lit. destruct (0 <? lit); [|auto].
  unfold obj, bind, get, ret. simpl.
  destruct (IDPool.obj lit (syms s)) as [name|]; simpl; [|auto].
  unfold decode_name.
  destruct (map Py.int (tail (split "_" name))) as [|[a|] [|[b|] [|[c|] [|]]]]; simpl; auto.
  unfold lookup_or_raise. destruct (dict_get b sol); simpl; auto.
Qed.

Lemma foldM_record_frame m : forall sol s,
  out (foldM m sol record_lit s) = [] /\ st (foldM m sol record_lit s) = s.
Proof.
  induction m as [|lit m IH]; intros sol s; simpl; [auto|].
  unfold bind. destruct (record_lit_frame sol lit s) as [Ho Hs].
  destruct (val (record_lit sol lit s)) as [e|sol'] eqn:E; simpl.
  - auto.
  - rewrite Ho, Hs. simpl. apply IH.
Qed.

Lemma bind_get {A B} (f : FietSAT -> A) (k : A -> M B) s :
  bind (get f) k s = k (f s) s.
Proof. unfold bind, get. simpl. now destruct (k (f s) s). Qed.

Lemma bind_ret {A B} (a : A) (k : A -> M B) s : bind (ret a) k s = k a s.
Proof. unfold bind, ret. simpl. now destruct (k a s). Qed.

Lemma bind_print {B} (l : line) (k : unit -> M B) s :
  bind (print l) k s = mkRes (l :: out (k tt s)) (val (k tt s)) (st (k tt s)).
Proof. reflexivity. Qed.

Lemma bind_eq {A B} (m : M A) (k : A -> M B) s :
  bind m k s =
  match val (m s) with
  | inl e => mkRes (out (m s)) (inl e) (st (m s))
  | inr a => mkRes (out (m s) ++ out (k a (st (m s))))
                   (val (k a (st (m s)))) (st (k a (st (m s))))
  end.
Proof. reflexivity. Qed.

Lemma bind_then_ret {A B} (m : M A) (b : B) s :
  bind m (fun _ => ret b) s =
  mkRes (out (m s)) (match val (m s) with inl e => inl e | inr _ => inr b end) (st (m s)).
Proof.
  unfold bind, ret. destruct (val (m s)); simpl; [reflexivity|].
  now rewrite List.app_nil_r.
Qed.

Lemma bind_quiet {A B} (m : M A) (k : A -> M B) s :
  out (m s) = [] -> st (m s) = s ->
  bind m k s = match val (m s) with
               | inl e => mkRes [] (inl e) s
               | inr a => k a s
               end.
Proof.
  intros Ho Hs. unfold bind. rewrite Ho, Hs.
  destruct (val (m s)); [reflexivity|]. simpl. now destruct (k a s).
Qed.

Lemma report_nil s : model s = [] ->
  report s = mkRes [] (inr (dict_of (fun rid => rid) (fun _ => [])
                   (range 1 (Z.of_nat (length (dict_keys (routes_info s))) + 1)))) s.
Proof.
  intros H. unfold report, routes. rewrite !bind_get, H. reflexivity.
Qed.

Lemma report_cons s : model s <> [] ->
  report s =
  let sol0 : solution := dict_of (fun rid => rid) (fun _ => [])
                (range 1 (Z.of_nat (length (dict_keys (routes_info s))) + 1)) in
  match val (foldM (model s) sol0 record_lit s) with
  | inl e => mkRes [] (inl e) s
  | inr sol =>
      let r := forM_ (dict_keys sol) (print_route sol) s in
      mkRes (Banner now :: NumDrivers (length (dict_keys (drivers_info s)))
               :: NumRoutes (length (dict_keys (routes_info s))) :: SatYes :: out r)
            (match val r with inl e => inl e | inr _ => inr sol end)
            (st r)
  end.
Proof.
  intros H. unfold report, routes, drivers. rewrite !bind_get.
  destruct (model s) as [|l m] eqn:Em; [congruence|]. cbn [negb is_nil].
  destruct (foldM_record_frame (l :: m) (dict_of (fun rid => rid) (fun _ => [])
                (range 1 (Z.of_nat (length (dict_keys (routes_info s))) + 1))) s) as [Ho Hs].
  rewrite (bind_quiet _ _ _ Ho Hs). cbv zeta.
  destruct (val (foldM (l :: m) _ record_lit s)) as [e|sol]; [reflexivity|].
  rewrite bind_print, bind_get, bind_print, bind_get, bind_print, bind_get, Em.
  cbn [negb is_nil]. rewrite bind_then_ret, bind_print. reflexivity.
Qed.

Lemma driver_line_run (did e : Z) s :
  (d <- driver_info did ;; print (DriverLine did (d_name d) e))%fiet s =
  match dict_get did (drivers_info s) with
  | Some d => mkRes [DriverLine did (d_name d) e] (inr tt) s
  | None => mkRes [] (inl (KeyError did)) s
  end.
Proof.
  unfold driver_info. unfold bind at 1. rewrite bind_get. unfold lookup_or_raise.
  destruct (dict_get did (drivers_info s)); reflexivity.
Qed.

Lemma drivers_loop (ps : list (Z * Z)) s :
  let r := forM_ ps (fun '(did, e) =>
             d <- driver_info did ;; print (DriverLine did (d_name d) e))%fiet s in
  st r = s /\
  exists ps1, Forall2 (fun p l => line_pair l = Some p) ps1 (out r) /\
              ps1 `prefix_of` ps /\ (val r = inr tt -> ps1 = ps).
Proof.
  induction ps as [|[did e] ps IH]; cbn [forM_]; cbv zeta.
  - split; [reflexivity|]. exists []. repeat split; [constructor | reflexivity].
  - rewrite bind_eq, driver_line_run. cbv zeta in IH.
    destruct (dict_get did (drivers_info s)) as [d|]; cbn [out val st app].
    + destruct IH as (Hs & ps1 & Hall & Hpre & Hok). split; [exact Hs|].
      exists ((did, e) :: ps1). repeat split.
      * constructor; [reflexivity | exact Hall].
      * now apply prefix_cons.
      * intros Hv. f_equal. auto.
    + split; [reflexivity|]. exists []. repeat split;
        [constructor | apply prefix_nil | discriminate].
Qed.

Lemma blocks_aux_pairs (ps : list (Z * Z)) (ls rest : list line) :
  Forall2 (fun p l => line_pair l = Some p) ps ls ->
  blocks_aux (ls ++ rest) = (ps ++ fst (blocks_aux rest), snd (blocks_aux rest)).
Proof.
  induction 1 as [|p l ps ls Hp _ IH]; simpl.
  - now destruct (blocks_aux rest).
  - rewrite IH. destruct l; try discriminate. simpl in Hp. now injection Hp as <-.
Qed.

Lemma pairs_not_verdict (ps : list (Z * Z)) (ls : list line) :
  Forall2 (fun p l => line_pair l = Some p) ps ls -> Forall (fun l => l <> SatNo) ls.
Proof.
  induction 1 as [|p l ps ls Hp _ IH]; constructor; [|exact IH].
  intros ->. discriminate.
Qed.

Lemma print_route_run (sol : solution) (rid : Z) s :
  print_route sol rid s =
  match dict_get rid (routes_info s) with
  | None => mkRes [] (inl (KeyError rid)) s
  | Some r =>
      match dict_get rid sol with
      | None => mkRes [RouteLine rid (r_start r) (r_end r)] (inl (KeyError rid)) s
      | Some pairs =>
          let q := forM_ (sorted_desc snd pairs) (fun '(did, e) =>
                     d <- driver_info did ;; print (DriverLine did (d_name d) e))%fiet s in
          mkRes (RouteLine rid (r_start r) (r_end r) :: out q) (val q) (st q)
      end
  end.
Proof.
  unfold print_route, route_info. rewrite bind_eq, bind_get. unfold lookup_or_raise.
  destruct (dict_get rid (routes_info s)) as [r|]; [|reflexivity].
  cbn [ret out val st app]. rewrite bind_print, bind_eq.
  destruct (dict_get rid sol) as [pairs|]; reflexivity.
Qed.

Lemma routes_loop (sol : solution) (rids : list Z) s :
  let r := forM_ rids (print_route sol) s in
  st r = s /\
  Forall (fun l => l <> SatNo) (out r) /\
  exists bs,
    blocks_aux (out r) = ([], bs) /\
    Forall (fun b => snd b `prefix_of` sorted_desc snd (pairs_at sol (fst b))) bs /\
    (val r = inr tt ->
     bs = map (fun rid => (rid, sorted_desc snd (pairs_at sol rid))) rids).
Proof.
  induction rids as [|rid rids IH]; cbn [forM_]; cbv zeta.
  - split; [reflexivity|]. split; [constructor|]. exists []. repeat split. constructor.
  - rewrite bind_eq, print_route_run. cbv zeta in IH.
    destruct (dict_get rid (routes_info s)) as [r|]; cbn [out val st].
    2:{ split; [reflexivity|]. split; [constructor|]. exists [].
        repeat split; [constructor | discriminate]. }
    destruct (dict_get rid sol) as [pairs|] eqn:Hs; cbn [out val st].
    2:{ split; [reflexivity|]. split; [repeat constructor; discriminate|].
        exists [(rid, [])]. repeat split; [|discriminate].
        repeat constructor. apply prefix_nil. }
    destruct (drivers_loop (sorted_desc snd pairs) s) as (Hq & ps1 & Hall & Hpre & Hok).
    cbv zeta in Hq, Hall, Hok.
    assert (Hpre' : ps1 `prefix_of` sorted_desc snd (pairs_at sol rid))
      by (unfold pairs_at; now rewrite Hs).
    destruct (val (forM_ (sorted_desc snd pairs) _ s)) as [e|[]] eqn:Hv; cbn [out val st].
    + split; [exact Hq|]. split.
      { constructor; [discriminate | eapply pairs_not_verdict; eauto]. }
      exists [(rid, ps1)]. repeat split; [|repeat constructor; exact Hpre'|discriminate].
      cbn [blocks_aux]. rewrite <- (List.app_nil_r (out _)), (blocks_aux_pairs _ _ _ Hall).
      cbn. now rewrite List.app_nil_r.
    + rewrite Hq. destruct IH as (Hst & Hno & bs & Hbs & Hsorted & Hmap).
      split; [exact Hst|]. split.
      { constructor; [discriminate|]. apply Forall_app. split; [|exact Hno].
        eapply pairs_not_verdict; eauto. }
      exists ((rid, ps1) :: bs). repeat split.
      * cbn [blocks_aux app]. rewrite (blocks_aux_pairs _ _ _ Hall), Hbs. cbn.
        now rewrite List.app_nil_r.
      * constructor; [exact Hpre' | exact Hsorted].
      * intros Hr. cbn [map]. rewrite (Hmap Hr), (Hok eq_refl).
        unfold pairs_at. now rewrite Hs.
Qed.

Lemma sorted_prefix {A} (R : A -> A -> Prop) (l1 l2 : list A) :
  l1 `prefix_of` l2 -> StronglySorted R l2 -> StronglySorted R l1.
Proof.
  intros [k ->]. induction l1 as [|x l1 IH]; simpl; [constructor|].
  intros H. apply StronglySorted_inv in H as [H1 H2].
  constructor; [now apply IH|]. apply Forall_app in H2. tauto.
Qed.

Lemma blocks_report_header (ls : list line) (n m : nat) :
  blocks (Banner now :: NumDrivers n :: NumRoutes m :: SatYes :: ls) = blocks ls.
Proof. unfold blocks. cbn [blocks_aux]. now destruct (blocks_aux ls). Qed.

(** C8: in the console report every route line is followed by the pairs
    recorded for that route in descending order of level, also in a report
    that an exception cuts short; a report that returns presents, for each
    key of the solution in turn, the recorded pairs stably sorted by level,
    largest first, which is a rearrangement of the recorded pairs. *)
Theorem report_levels_descending s :
  (forall rid ps, In (rid, ps) (blocks (out (report s))) ->
     StronglySorted (desc snd) ps) /\
  (forall sol, val (report s) = inr sol -> model s <> [] ->
     blocks (out (report s)) =
     map (fun rid => (rid, sorted_desc snd (pairs_at sol rid))) (dict_keys sol)) /\
  (forall pairs : list (Z * Z),
     StronglySorted (desc snd) (sorted_desc snd pairs) /\
     Permutation pairs (sorted_desc snd pairs)).
Proof.
  split; [|split].
  - intros rid ps. destruct (model s) as [|l m] eqn:Em.
    + rewrite (report_nil s Em). simpl. tauto.
    + rewrite (report_cons s) by congruence. cbv zeta.
      destruct (val (foldM (model s) _ record_lit s)) as [e|sol]; [simpl; tauto|].
      cbn [out]. rewrite blocks_report_header.
      destruct (routes_loop sol (dict_keys sol) s) as (_ & _ & bs & Hbs & Hall & _).
      cbv zeta in Hbs. unfold blocks. rewrite Hbs. cbn [snd]. intros Hin.
      rewrite List.Forall_forall in Hall. specialize (Hall _ Hin). cbn in Hall.
      eapply sorted_prefix; [exact Hall | apply sorted_desc_sorted].
  - intros sol Hv Hm. revert Hv. rewrite (report_cons s Hm). cbv zeta.
    destruct (val (foldM (model s) _ record_lit s)) as [e|sol']; [discriminate|].
    cbn [out val]. rewrite blocks_report_header.
    destruct (routes_loop sol' (dict_keys sol') s) as (_ & _ & bs & Hbs & _ & Hmap).
    cbv zeta in Hbs, Hmap. unfold blocks. rewrite Hbs. cbn [snd].
    destruct (val (forM_ (dict_keys sol') (print_route sol') s)) as [e|[]];
      [discriminate|].
    intros [= <-]. now apply Hmap.
  - intros pairs. split; [apply sorted_desc_sorted | apply sorted_desc_perm].
Qed.

Lemma report_never_says_no s : ~ In SatNo (out (report s)).
Proof.
  destruct (model s) as [|l m] eqn:Em.
  - rewrite (report_nil s Em). simpl. tauto.
  - rewrite (report_cons s) by congruence. cbv zeta.
    destruct (val (foldM (model s) _ record_lit s)) as [e|sol]; [simpl; tauto|].
    cbn [out].
    destruct (routes_loop sol (dict_keys sol) s) as (_ & Hno & _).
    cbv zeta in Hno. rewrite List.Forall_forall in Hno.
    intros [H|[H|[H|[H|H]]]]; try discriminate. exact (Hno _ H eq_refl).
Qed.

End ReportFacts.

(** ** The domain model as a frame *)

Section FrameRules.

Lemma kd_ret {A} (a : A) : keeps_domain (ret a).
Proof. intros s. auto. Qed.

Lemma kd_raise {A} (e : exn) : keeps_domain (@raise A e).
Proof. intros s. auto. Qed.

Lemma kd_get {A} (f : FietSAT -> A) : keeps_domain (get f).
Proof. intros s. auto. Qed.

Lemma kd_print (l : line) : keeps_domain (print l).
Proof. intros s. auto. Qed.

Lemma kd_bind {A B} (m : M A) (k : A -> M B) :
  keeps_domain m -> (forall a, keeps_domain (k a)) -> keeps_domain (bind m k).
Proof.
  intros Hm Hk s. rewrite bind_eq. destruct (Hm s) as [H1 H2].
  destruct (val (m s)) as [e|a]; cbn [st]; [auto|].
  destruct (Hk a (st (m s))) as [H3 H4]. split; congruence.
Qed.

Lemma kd_lookup {V} (k : Z) (d : pydict V) : keeps_domain (lookup_or_raise k d).
Proof. unfold lookup_or_raise. destruct (dict_get k d); [apply kd_ret | apply kd_raise]. Qed.

Lemma kd_forM {A B} (xs : list A) (body : A -> M B) :
  (forall x, keeps_domain (body x)) -> keeps_domain (forM xs body).
Proof.
  intros H. induction xs; cbn [forM]; [apply kd_ret|].
  apply kd_bind; [apply H|]. intros y. apply kd_bind; [exact IHxs|]. intros. apply kd_ret.
Qed.

Lemma kd_forM_flat {A B} (xs : list A) (inner : A -> M (list B)) :
  (forall x, keeps_domain (inner x)) -> keeps_domain (forM_flat xs inner).
Proof.
  intros H. apply kd_bind; [now apply kd_forM|]. intros. apply kd_ret.
Qed.

Lemma kd_forM_ {A} (xs : list A) (body : A -> M unit) :
  (forall x, keeps_domain (body x)) -> keeps_domain (forM_ xs body).
Proof.
  intros H. induction xs; cbn [forM_]; [apply kd_ret|].
  apply kd_bind; [apply H|]. intros _. exact IHxs.
Qed.

Lemma kd_foldM {A S} (xs : list A) (body : S -> A -> M S) :
  (forall acc x, keeps_domain (body acc x)) -> forall acc, keeps_domain (foldM xs acc body).
Proof.
  intros H. induction xs; intros acc; cbn [foldM]; [apply kd_ret|].
  apply kd_bind; [apply H|]. intros acc'. apply IHxs.
Qed.

Lemma kd_with_syms {A} (op : IDPool.t -> A * IDPool.t) : keeps_domain (with_syms op).
Proof. intros s. unfold with_syms. destruct (op (syms s)). auto. Qed.

Lemma kd_set_problem pr : keeps_domain (set_problem pr).
Proof. intros s. auto. Qed.

Lemma kd_set_model m : keeps_domain (set_model m).
Proof. intros s. auto. Qed.

Lemma kd_append_formula f : keeps_domain (append_formula f).
Proof. intros s. auto. Qed.

End FrameRules.

Create HintDb frame.

#[local] Hint Resolve kd_ret kd_raise kd_get kd_print kd_lookup kd_with_syms
  kd_set_problem kd_set_model kd_append_formula : frame.

(** Splits a method along its binds and loops down to the primitives. *)
Ltac frame :=
  repeat first
    [ progress intros
    | apply kd_bind
    | apply kd_forM
    | apply kd_forM_flat
    | apply kd_forM_
    | apply kd_foldM
    | solve [auto with frame]
    | match goal with
      | |- keeps_domain (match ?x with _ => _ end) => destruct x
      | |- keeps_domain (let '(_, _) := ?x in _) => destruct x
      end ].

(** ** [solve] and the whole run *)

Section RunFacts.

Variable atmost : list Z -> Z -> formula * Z.
Variable equals : list Z -> Z -> formula * Z.
Variable sat_solve : formula -> option (list Z).
Variable now : string.

Abbreviation formulate := (formulate atmost equals).
Abbreviation solve := (solve sat_solve).
Abbreviation report := (report now).
Abbreviation main := (main atmost equals sat_solve now).

Lemma append_loop (fs : list formula) : forall s,
  forM_ fs append_formula s =
  mkRes [] (inr tt)
    (mkFietSAT (drivers_info s) (routes_info s) (syms s)
       (solver s ++ concat fs) (problem s) (model s)).
Proof.
  induction fs as [|f fs IH]; intros s; cbn [forM_ concat].
  - destruct s. unfold ret. cbn. now rewrite List.app_nil_r.
  - rewrite bind_eq. cbn [append_formula out val st]. rewrite IH. cbn.
    now rewrite List.app_assoc.
Qed.

Lemma groups_loop (pr : list (list formula)) : forall s,
  forM_ pr (fun c_group => forM_ c_group append_formula) s =
  mkRes [] (inr tt)
    (mkFietSAT (drivers_info s) (routes_info s) (syms s)
       (solver s ++ concat (concat pr)) (problem s) (model s)).
Proof.
  induction pr as [|g pr IH]; intros s; cbn [forM_ concat].
  - destruct s. unfold ret. cbn. now rewrite List.app_nil_r.
  - rewrite bind_eq, append_loop. cbn [out val st]. rewrite IH. cbn.
    now rewrite concat_app, List.app_assoc.
Qed.

Lemma solve_run s :
  let cls := solver s ++ concat (concat (problem s)) in
  solve s =
  match sat_solve cls with
  | Some m =>
      mkRes [] (inr true)
        (mkFietSAT (drivers_info s) (routes_info s) (syms s) cls (problem s) m)
  | None =>
      mkRes [] (inr false)
        (mkFietSAT (drivers_info s) (routes_info s) (syms s) cls (problem s) [])
  end.
Proof.
  unfold solve. rewrite bind_get, bind_eq, groups_loop.
  cbn [out val st app]. rewrite bind_get. cbn [solver].
  destruct (sat_solve _); reflexivity.
Qed.

(** C1: what the code does where the verdict line is expected. When
    [solve] finds no model it leaves [model] empty, and [report] on an
    empty model returns the solution with an empty list under each of the
    keys [1..n] but prints nothing at all; the line [SAT? No] is in no
    output of [report]. *)
Theorem unsat_report_prints_nothing :
  (forall s, val (solve s) = inr false -> model (st (solve s)) = []) /\
  (forall s, model s = [] ->
     exists sol, report s = mkRes [] (inr sol) s /\
                 forall rid pairs, dict_get rid sol = Some pairs -> pairs = []) /\
  (forall s, ~ In SatNo (out (report s))).
Proof.
  split; [|split].
  - intros s. rewrite solve_run. cbv zeta.
    destruct (sat_solve _); [discriminate | reflexivity].
  - intros s Hm. eexists. split; [apply (report_nil now s Hm)|].
    intros rid pairs Hg. apply dict_of_get in Hg as (x & _ & _ & <-). reflexivity.
  - apply report_never_says_no.
Qed.

(** C9: none of the methods that run after construction changes the domain
    model: whatever the outcome (a value or an exception), the object they
    leave behind has the same [drivers_info] and [routes_info], hence the
    same routes list in every driver and the same drivers list in every
    route. *)
Theorem domain_model_is_frame :
  keeps_domain drivers /\
  (forall rid, keeps_domain (drivers_of rid)) /\
  (forall did, keeps_domain (driver_info did)) /\
  keeps_domain routes /\
  (forall did, keeps_domain (routes_of did)) /\
  (forall rid, keeps_domain (route_info rid)) /\
  (forall did, keeps_domain (exp did)) /\
  (forall did rid e, keeps_domain (vid did rid e)) /\
  (forall v, keeps_domain (obj v)) /\
  keeps_domain formulate /\
  keeps_domain solve /\
  keeps_domain report /\
  keeps_domain main.
Proof.
  assert (Hf : keeps_domain formulate).
  { unfold formulate, drivers, routes, c1_for, c2_for,
      c3_for, c4_for, routes_of, drivers_of, exp, vid,
      CardEnc_atmost, CardEnc_equals. frame. }
  assert (Hs : keeps_domain solve).
  { unfold solve. frame. }
  assert (Hr : keeps_domain report).
  { unfold report, routes, drivers, record_lit, print_route, obj,
      decode_name, route_info, driver_info. frame. }
  repeat match goal with |- _ /\ _ => split end;
    try exact Hf; try exact Hs; try exact Hr; intros;
    try (unfold drivers, drivers_of, driver_info, routes, routes_of, route_info,
           exp, vid, obj; solve [frame]).
  apply (kd_bind _ _ Hf). intros _. apply (kd_bind _ _ Hs). intros _. exact Hr.
Qed.

End RunFacts.

(** ** Decoding the model *)

Section DecodeFacts.

Lemma bind_returns {A B} (m : M A) (k : A -> M B) s (a : A) :
  m s = mkRes [] (inr a) s -> bind m k s = k a s.
Proof. intros H. rewrite bind_eq, H. cbn. now destruct (k a s). Qed.

Lemma record_lit_val (sol : solution) (lit : Z) s :
  val (record_lit sol lit s) =
  if 0 <? lit then
    match IDPool.id2obj (syms s) !! lit with
    | None => inr sol
    | Some name =>
        match map Py.int (tail (split "_" name)) with
        | [Some did; Some rid; Some e] =>
            match dict_get rid sol with
            | Some pairs => inr (dict_set rid (pairs ++ [(did, e)]) sol)
            | None => inl (KeyError rid)
            end
        | _ => inl ValueError
        end
    end
  else inr sol.
Proof.
  unfold record_lit. destruct (0 <? lit); [|reflexivity].
  rewrite (bind_returns _ _ s (IDPool.id2obj (syms s) !! lit)) by reflexivity.
  destruct (IDPool.id2obj (syms s) !! lit) as [name|]; [|reflexivity].
  unfold decode_name.
  destruct (map Py.int (tail (split "_" name))) as [|[a|] [|[b|] [|[c|] [|]]]];
    try reflexivity.
  rewrite bind_ret. unfold lookup_or_raise.
  destruct (dict_get b sol); reflexivity.
Qed.

Lemma foldM_record_cons (lit : Z) (m : list Z) (sol : solution) s :
  foldM (lit :: m) sol record_lit s =
  match val (record_lit sol lit s) with
  | inl e => mkRes [] (inl e) s
  | inr sol' => foldM m sol' record_lit s
  end.
Proof.
  cbn [foldM]. destruct (record_lit_frame sol lit s) as [Ho Hs].
  now rewrite (bind_quiet _ _ _ Ho Hs).
Qed.

Lemma record_lit_keys (sol sol' : solution) (lit : Z) s :
  val (record_lit sol lit s) = inr sol' -> dict_keys sol' = dict_keys sol.
Proof.
  rewrite record_lit_val. destruct (0 <? lit); [|now intros [= <-]].
  destruct (IDPool.id2obj (syms s) !! lit) as [name|]; [|now intros [= <-]].
  destruct (map Py.int (tail (split "_" name))) as [|[a|] [|[b|] [|[c|] [|]]]];
    try discriminate.
  destruct (dict_get b sol) eqn:E; [|discriminate].
  intros [= <-]. apply dict_keys_set. congruence.
Qed.

Lemma decode_loop_keys (m : list Z) s : forall sol sol' : solution,
  val (foldM m sol record_lit s) = inr sol' -> dict_keys sol' = dict_keys sol.
Proof.
  induction m as [|lit m IH]; intros sol sol'.
  - now intros [= <-].
  - rewrite foldM_record_cons.
    destruct (val (record_lit sol lit s)) as [e|sol1] eqn:E; [discriminate|].
    intros H. rewrite (IH _ _ H). eapply record_lit_keys; eauto.
Qed.

(** With only variable names in the pool, a positive literal of the model
    whose route is no key of the solution makes the decoding loop raise
    [KeyError] on a key the solution does not have. *)
Lemma decode_loop_error (m : list Z) s :
  (forall v n, IDPool.id2obj (syms s) !! v = Some n -> exists d r e, n = var_name d r e) ->
  forall sol : solution,
  (exists lit d r e, In lit m /\ 0 < lit /\
      IDPool.id2obj (syms s) !! lit = Some (var_name d r e) /\
      ~ In r (dict_keys sol)) ->
  exists k, val (foldM m sol record_lit s) = inl (KeyError k) /\ ~ In k (dict_keys sol).
Proof.
  intros Hnames. induction m as [|lit0 m IH]; intros sol (lit & d & r & e & Hin & Hpos & Hn & Hr);
    [contradiction|].
  rewrite foldM_record_cons.
  destruct (val (record_lit sol lit0 s)) as [err|sol1] eqn:E.
  - rewrite record_lit_val in E. destruct (0 <? lit0); [|discriminate].
    destruct (IDPool.id2obj (syms s) !! lit0) as [name|] eqn:En; [|discriminate].
    destruct (Hnames _ _ En) as (d0 & r0 & e0 & ->).
    rewrite PyFacts.ints_var_name in E.
    destruct (dict_get r0 sol) eqn:Eg; [discriminate|]. injection E as <-.
    exists r0. split; [reflexivity|]. rewrite dict_get_keys. congruence.
  - pose proof (record_lit_keys _ _ _ _ E) as Hk.
    destruct Hin as [<-|Hin].
    + exfalso. rewrite record_lit_val in E.
      apply Z.ltb_lt in Hpos. rewrite Hpos, Hn, PyFacts.ints_var_name in E.
      destruct (dict_get r sol) eqn:Eg; [|discriminate].
      apply Hr, dict_get_keys. congruence.
    + destruct (IH sol1) as (k & Hv & Hk').
      * exists lit, d, r, e. rewrite Hk. auto.
      * exists k. rewrite <- Hk. auto.
Qed.

Lemma dict_set_fresh {V} (k : Z) (v : V) (d : pydict V) :
  dict_get k d = None -> dict_set k v d = d ++ [(k, v)].
Proof.
  induction d as [|[k0 v0] d IH]; simpl; [reflexivity|].
  destruct (Z.eqb_spec k k0); [discriminate|]. intros H. now rewrite IH.
Qed.

Lemma dict_fold_keys {V} (f : Z -> V) (ks : list Z) : forall d : pydict V,
  NoDup (dict_keys d ++ ks) ->
  dict_keys (fold_left (fun d x => dict_set x (f x) d) ks d) = dict_keys d ++ ks.
Proof.
  induction ks as [|k ks IH]; intros d Hnd; simpl.
  - now rewrite List.app_nil_r.
  - assert (Hk : dict_get k d = None).
    { destruct (dict_get k d) eqn:E; [|reflexivity]. exfalso.
      apply NoDup_app in Hnd as (_ & Hd & _).
      apply (Hd k); [apply list_elem_of_In, dict_get_keys; congruence | left]. }
    rewrite (dict_set_fresh _ _ _ Hk), IH.
    + unfold dict_keys. rewrite map_app. simpl. now rewrite <- List.app_assoc.
    + unfold dict_keys. rewrite map_app. simpl. now rewrite <- List.app_assoc.
Qed.

Lemma range_NoDup (a b : Z) : NoDup (range a b).
Proof.
  unfold range. apply NoDup_fmap_2; [|apply NoDup_seq].
  intros i j H. lia.
Qed.

Lemma solution0_keys (n : nat) :
  dict_keys (dict_of (fun rid => rid) (fun _ => @nil (Z * Z))
               (range 1 (Z.of_nat n + 1))) = range 1 (Z.of_nat n + 1).
Proof.
  unfold dict_of. rewrite (dict_fold_keys (fun _ => [])); [reflexivity|].
  simpl. apply range_NoDup.
Qed.

Lemma dict_set_keys {V} (k : Z) (v : V) (d : pydict V) :
  dict_keys (dict_set k v d) =
  match dict_get k d with
  | Some _ => dict_keys d
  | None => dict_keys d ++ [k]
  end.
Proof.
  destruct (dict_get k d) eqn:E.
  - apply dict_keys_set. congruence.
  - rewrite (dict_set_fresh _ _ _ E). unfold dict_keys. now rewrite map_app.
Qed.

Lemma dict_set_NoDup {V} (k : Z) (v : V) (d : pydict V) :
  NoDup (dict_keys d) -> NoDup (dict_keys (dict_set k v d)).
Proof.
  intros H. rewrite dict_set_keys. destruct (dict_get k d) eqn:E; [exact H|].
  apply NoDup_app. repeat split; [exact H| |apply NoDup_singleton].
  intros x Hx Hx'. apply list_elem_of_singleton in Hx'. subst x.
  apply list_elem_of_In, dict_get_keys in Hx. congruence.
Qed.

Lemma dict_of_NoDup {X V} (key : X -> Z) (value : X -> V) (xs : list X) :
  NoDup (dict_keys (dict_of key value xs)).
Proof.
  unfold dict_of.
  assert (G : forall d : pydict V, NoDup (dict_keys d) ->
    NoDup (dict_keys (fold_left (fun d x => dict_set (key x) (value x) d) xs d))).
  { induction xs as [|x xs IH]; intros d Hd; simpl; [exact Hd|].
    apply IH. now apply dict_set_NoDup. }
  apply G. constructor.
Qed.

Lemma fill_routes_keys (did : Z) (rids : list Z) : forall ri ri',
  fill_routes did rids ri = inr ri' -> dict_keys ri' = dict_keys ri.
Proof.
  induction rids as [|rid rest IH]; simpl; intros ri ri' H; [now injection H as <-|].
  unfold append_driver in H. destruct (dict_get rid ri) as [r|] eqn:E; [|discriminate].
  rewrite (IH _ _ H). apply dict_keys_set. congruence.
Qed.

Lemma fill_drivers_keys (di : pydict Driver) (dids : list Z) : forall ri ri',
  fill_drivers dids di ri = inr ri' -> dict_keys ri' = dict_keys ri.
Proof.
  induction dids as [|did rest IH]; simpl; intros ri ri' H; [now injection H as <-|].
  destruct (dict_get did di) as [d|]; [|discriminate].
  destruct (fill_routes did (d_routes d) ri) as [e|ri1] eqn:E; [discriminate|].
  rewrite (IH _ _ H). eapply fill_routes_keys; eauto.
Qed.

(** What a successful [parse] guarantees about the two maps. *)
Lemma parse_consistent ds rs di ri :
  parse ds rs = inr (di, ri) ->
  NoDup (dict_keys ri) /\
  (forall d dr r, dict_get d di = Some dr -> In r (d_routes dr) -> dict_get r ri <> None) /\
  (forall r rt d, dict_get r ri = Some rt -> In d (r_drivers rt) -> dict_get d di <> None).
Proof.
  intros Hp. pose proof Hp as Hp'. apply parse_inr in Hp' as [-> Hf].
  split; [|split].
  - rewrite (fill_drivers_keys _ _ _ _ Hf). apply dict_of_NoDup.
  - intros d dr r Hg Hin Hnone.
    rewrite (fill_drivers_get _ _ _ _ Hf r) in Hnone.
    destruct (fill_drivers_fail (drivers_table ds) (dict_keys (drivers_table ds)))
      with (ri := routes_table rs) as (k & Hk & _).
    + intros x Hx. now apply dict_get_keys.
    + exists d, dr, r. repeat split; auto.
      * apply dict_get_keys. congruence.
      * destruct (dict_get r (routes_table rs)); [discriminate | reflexivity].
    + congruence.
  - intros r rt d Hg Hin.
    destruct (parse_drivers_list _ _ _ _ _ _ Hp Hg) as [_ Hl].
    rewrite Hl in Hin. apply inverse_of_In in Hin as (_ & dr & Hd & _). congruence.
Qed.

Lemma keys_fill_positions (ks : list Z) :
  NoDup ks ->
  (forall r, In r ks -> 1 <= r <= Z.of_nat (length ks)) ->
  forall k, 1 <= k <= Z.of_nat (length ks) -> In k ks.
Proof.
  intros Hnd Hin k Hk.
  apply (NoDup_length_incl (l := ks) (l' := range 1 (Z.of_nat (length ks) + 1))).
  - apply NoDup_ListNoDup, Hnd.
  - unfold range. rewrite length_map, length_seq. lia.
  - intros r Hr. apply range_In. specialize (Hin r Hr). lia.
  - apply range_In. lia.
Qed.

End DecodeFacts.

(** ** The keys of the solution *)

Section PositionFacts.

Variable atmost : list Z -> Z -> formula * Z.
Variable equals : list Z -> Z -> formula * Z.
Variable sat_solve : formula -> option (list Z).
Variable now : string.

Abbreviation formulate := (formulate atmost equals).
Abbreviation solve := (solve sat_solve).
Abbreviation report := (report now).
Abbreviation main := (main atmost equals sat_solve now).

(** Every named variable of the pool is for a known driver and for a route
    among the keys [ks]. *)
Lemma decode_loop_ok (ks : list Z) (m : list Z) s :
  (forall v n, IDPool.id2obj (syms s) !! v = Some n ->
     exists d r e, n = var_name d r e /\ In r ks /\ dict_get d (drivers_info s) <> None) ->
  forall sol : solution,
  dict_keys sol = ks ->
  (forall rid pairs did e, dict_get rid sol = Some pairs -> In (did, e) pairs ->
     dict_get did (drivers_info s) <> None) ->
  exists sol', val (foldM m sol record_lit s) = inr sol' /\
    dict_keys sol' = ks /\
    (forall rid pairs did e, dict_get rid sol' = Some pairs -> In (did, e) pairs ->
       dict_get did (drivers_info s) <> None).
Proof.
  intros Hnames. induction m as [|lit m IH]; intros sol Hk Hknown.
  - exists sol. auto.
  - rewrite foldM_record_cons, record_lit_val.
    destruct (0 <? lit); [|now apply IH].
    destruct (IDPool.id2obj (syms s) !! lit) as [name|] eqn:En; [|now apply IH].
    destruct (Hnames _ _ En) as (d & r & e & -> & Hr & Hd).
    rewrite PyFacts.ints_var_name.
    destruct (dict_get r sol) as [pairs|] eqn:Eg.
    + apply IH.
      * rewrite dict_keys_set; [exact Hk | congruence].
      * intros rid ps did e'. rewrite dict_get_set.
        destruct (Z.eqb_spec rid r) as [->|Hne]; [|apply Hknown].
        intros [= <-] Hin. apply List.in_app_or in Hin as [Hin|[[= <- <-]|[]]]; [|exact Hd].
        eapply Hknown; eauto.
    + exfalso. rewrite <- Hk in Hr. apply dict_get_keys in Hr. congruence.
Qed.

Lemma drivers_loop_ok (ps : list (Z * Z)) s :
  (forall did e, In (did, e) ps -> dict_get did (drivers_info s) <> None) ->
  val (forM_ ps (fun '(did, e) =>
         d <- driver_info did ;; print (DriverLine did (d_name d) e))%fiet s) = inr tt.
Proof.
  induction ps as [|[did e] ps IH]; intros H; cbn [forM_]; [reflexivity|].
  rewrite bind_eq, driver_line_run.
  destruct (dict_get did (drivers_info s)) as [d|] eqn:E.
  - cbn [out val st]. apply IH. intros did' e' Hin. apply (H did' e'). now right.
  - exfalso. apply (H did e); [now left | exact E].
Qed.

Lemma routes_loop_ok (sol : solution) (rids : list Z) s :
  (forall rid, In rid rids ->
     dict_get rid (routes_info s) <> None /\ dict_get rid sol <> None) ->
  (forall rid pairs did e, dict_get rid sol = Some pairs -> In (did, e) pairs ->
     dict_get did (drivers_info s) <> None) ->
  val (forM_ rids (print_route sol) s) = inr tt.
Proof.
  intros Hr Hd. induction rids as [|rid rids IH]; cbn [forM_]; [reflexivity|].
  rewrite bind_eq, print_route_run.
  destruct (Hr rid (or_introl eq_refl)) as [H1 H2].
  destruct (dict_get rid (routes_info s)) as [r|]; [|congruence].
  destruct (dict_get rid sol) as [pairs|] eqn:Es; [|congruence].
  cbv zeta. cbn [out val st].
  destruct (drivers_loop (sorted_desc snd pairs) s) as (Hq & _). cbv zeta in Hq.
  rewrite drivers_loop_ok.
  - cbn [out val st]. rewrite Hq. apply IH. intros x Hx. apply Hr. now right.
  - intros did e Hin. apply (Hd rid pairs did e Es).
    eapply Permutation_in; [symmetry; apply sorted_desc_perm | exact Hin].
Qed.

Lemma report_ok s :
  (forall v n, IDPool.id2obj (syms s) !! v = Some n ->
     exists d r e, n = var_name d r e /\
       In r (dict_keys (routes_info s)) /\ dict_get d (drivers_info s) <> None) ->
  NoDup (dict_keys (routes_info s)) ->
  (forall r, In r (dict_keys (routes_info s)) ->
     1 <= r <= Z.of_nat (length (dict_keys (routes_info s)))) ->
  exists sol, val (report s) = inr sol.
Proof.
  intros Hnames Hnd Hpos.
  destruct (model s) as [|l m] eqn:Em.
  { rewrite (report_nil now s Em). eauto. }
  rewrite (report_cons now s) by congruence. cbv zeta.
  set (n := Z.of_nat (length (dict_keys (routes_info s)))) in *.
  destruct (decode_loop_ok (range 1 (n + 1)) (model s) s) with
    (sol := dict_of (fun rid => rid) (fun _ => @nil (Z * Z)) (range 1 (n + 1)))
    as (sol & Hv & Hk & Hd).
  - intros v name Hn. destruct (Hnames _ _ Hn) as (d & r & e & -> & Hr & Hkn).
    exists d, r, e. repeat split; auto. apply range_In. specialize (Hpos r Hr). lia.
  - apply solution0_keys.
  - intros rid pairs did e Hg. apply dict_of_get in Hg as (x & _ & _ & <-). contradiction.
  - rewrite Hv. cbn [val]. rewrite routes_loop_ok; [eauto| |exact Hd].
    intros rid Hin. rewrite Hk in Hin. apply range_In in Hin. split.
    + apply dict_get_keys. apply keys_fill_positions; [exact Hnd | exact Hpos | ].
      fold n. lia.
    + apply dict_get_keys. rewrite Hk. apply range_In. lia.
Qed.

Lemma bind_runs {A B} (m : M A) (k : A -> M B) s (a : A) s1 :
  m s = mkRes [] (inr a) s1 -> bind m k s = k a s1.
Proof. intros H. rewrite bind_eq, H. cbn. now destruct (k a s1). Qed.

Lemma eligible_known ds rs di ri d r :
  parse ds rs = inr (di, ri) -> eligible di ri d r ->
  In r (dict_keys ri) /\ dict_get d di <> None.
Proof.
  intros Hp He. destruct (parse_consistent _ _ _ _ Hp) as (_ & H1 & H2).
  destruct He as [(dr & Hg & Hin)|(rt & Hg & Hin)].
  - split; [apply dict_get_keys; eauto | congruence].
  - split; [apply dict_get_keys; congruence | eauto].
Qed.

Lemma main_ok ds rs s :
  init ds rs = inr s ->
  (forall r, In r (dict_keys (routes_info s)) ->
     1 <= r <= Z.of_nat (length (dict_keys (routes_info s)))) ->
  exists sol, val (main s) = inr sol.
Proof.
  intros Hinit Hpos. apply init_inr in Hinit as (Hp & Hsyms & _).
  destruct (formulate_spec atmost equals s)
    as ([[[c_1 c_2] c_3] c_4] & s1 & Hrun & Hx & _).
  destruct Hx as (Hd & Hr & _ & _ & Hsteps).
  unfold main. rewrite (bind_runs _ _ _ _ _ Hrun).
  pose proof (solve_run sat_solve s1) as Hsolve. cbv zeta in Hsolve.
  assert (Hgoal : forall s2, drivers_info s2 = drivers_info s ->
            routes_info s2 = routes_info s -> syms s2 = syms s1 ->
            exists sol, val (report s2) = inr sol).
  { intros s2 Hd2 Hr2 Hs2. apply report_ok; rewrite ?Hd2, ?Hr2, ?Hs2.
    - intros v name Hn.
      destruct (fsteps_objs _ _ _ _ _ _ _ _ Hsteps Hn) as [H0|(d & r & e & -> & He)].
      + rewrite Hsyms in H0. simpl in H0. now rewrite lookup_empty in H0.
      + destruct (eligible_known _ _ _ _ _ _ Hp He). eauto 6.
    - apply (parse_consistent _ _ _ _ Hp).
    - exact Hpos. }
  destruct (sat_solve _) as [m|];
    rewrite (bind_runs _ _ _ _ _ Hsolve); apply Hgoal; cbn; auto.
Qed.

(** C10: the solution [report] returns is keyed by the integers [1..n], [n]
    the number of routes, whatever the route IDs are, so no integer outside
    [1..n] is ever a key of it. For an object built from the input files
    whose route IDs all lie in [1..n], the whole run returns a solution:
    decoding and printing raise nothing. With only variable names in the
    pool, a positive literal of the model that names a route outside
    [1..n] makes [report] raise [KeyError] on a key outside [1..n]. *)
Theorem solution_keys_are_positions :
  (forall s sol, val (report s) = inr sol ->
     dict_keys sol = range 1 (Z.of_nat (length (dict_keys (routes_info s))) + 1) /\
     forall k, In k (dict_keys sol) <->
               1 <= k <= Z.of_nat (length (dict_keys (routes_info s)))) /\
  (forall ds rs s, init ds rs = inr s ->
     (forall r, In r (dict_keys (routes_info s)) ->
        1 <= r <= Z.of_nat (length (dict_keys (routes_info s)))) ->
     exists sol, val (main s) = inr sol) /\
  (forall s,
     (forall v name, IDPool.id2obj (syms s) !! v = Some name ->
        exists d r e, name = var_name d r e) ->
     (exists lit d r e, In lit (model s) /\ 0 < lit /\
        IDPool.id2obj (syms s) !! lit = Some (var_name d r e) /\
        ~ 1 <= r <= Z.of_nat (length (dict_keys (routes_info s)))) ->
     exists k, val (report s) = inl (KeyError k) /\
               ~ 1 <= k <= Z.of_nat (length (dict_keys (routes_info s)))).
Proof.
  split; [|split].
  - intros s sol Hv.
    assert (Hk : dict_keys sol =
                 range 1 (Z.of_nat (length (dict_keys (routes_info s))) + 1)).
    { destruct (model s) as [|l m] eqn:Em.
      - rewrite (report_nil now s Em) in Hv. injection Hv as <-. apply solution0_keys.
      - rewrite (report_cons now s) in Hv by congruence. cbv zeta in Hv.
        destruct (val (foldM (model s) _ record_lit s)) as [e|sol'] eqn:E; [discriminate|].
        cbn [val] in Hv.
        destruct (val (forM_ _ _ s)); [discriminate|]. injection Hv as <-.
        rewrite (decode_loop_keys _ _ _ _ E). apply solution0_keys. }
    split; [exact Hk|]. intros k. rewrite Hk, range_In. lia.
  - apply main_ok.
  - intros s Hnames (lit & d & r & e & Hin & Hpos & Hn & Hr).
    assert (Hm : model s <> []) by (intros H0; rewrite H0 in Hin; contradiction).
    rewrite (report_cons now s Hm). cbv zeta.
    destruct (decode_loop_error (model s) s Hnames
                (dict_of (fun rid => rid) (fun _ => @nil (Z * Z))
                   (range 1 (Z.of_nat (length (dict_keys (routes_info s))) + 1))))
      as (k & Hv & Hk).
    + exists lit, d, r, e. repeat split; auto.
      rewrite solution0_keys, range_In. lia.
    + exists k. rewrite Hv. split; [reflexivity|].
      rewrite solution0_keys, range_In in Hk. lia.
Qed.

End PositionFacts.

Lemma solution_keys_are_positions_witness :
  (exists sol,
     val (main Sample.atmost Sample.equals Sample.unsat Sample.now Sample.app) = inr sol) /\
  (exists k, val (report Sample.now Sample.far_app) = inl (KeyError k) /\
             ~ 1 <= k <= Z.of_nat (length (dict_keys (routes_info Sample.far_app)))).
Proof.
  pose proof (solution_keys_are_positions
                Sample.atmost Sample.equals Sample.unsat Sample.now) as (_ & H2 & H3).
  split.
  - apply (H2 Sample.drivers_json Sample.routes_json Sample.app eq_refl).
    simpl. intros r [<-|[<-|[]]]; lia.
  - apply (H3 Sample.far_app).
    + intros v name.
      change (IDPool.id2obj (syms Sample.far_app))
        with (<[1 := var_name 1 10 4]> (∅ : gmap Z string)).
      rewrite lookup_insert. case_decide; [|rewrite lookup_empty; discriminate].
      intros [= <-]. eauto.
    + exists 1, 1, 10, 4.
      split; [simpl; auto|]. split; [lia|]. split; [|simpl; lia].
      change (IDPool.id2obj (syms Sample.far_app))
        with (<[1 := var_name 1 10 4]> (∅ : gmap Z string)).
      apply lookup_insert_eq.
Defined.

(** ** The sample instance, run *)

Example sample_ceiling :
  val (formulate Sample.atmost Sample.equals Sample.app) =
  inr ([Sample.pairs [1; 2; 3; 4]; Sample.pairs [5; 6; 7; 8]; Sample.pairs [9; 10; 11; 12]],
       [Sample.pairs [1; 2; 3; 4; 5; 6; 7; 8]; Sample.pairs [9; 10; 11; 12]; []],
       [[[13; 1; 9]; [-13]; [-1; -9]]; [[14; 2; 10]; [-14]; [-2; -10]];
        [[15; 3; 11]; [-15]; [-3; -11]]; [[16; 4; 12]; [-16]; [-4; -12]];
        [[17; 5]; [-17]]; [[18; 6]; [-18]]; [[19; 7]; [-19]]; [[20; 8]; [-20]]],
       [[[-1]]; [[-5]]]).
Proof. vm_compute. reflexivity. Qed.

Example sample_unsat_run :
  init Sample.drivers_short Sample.routes_one = inr Sample.short_app /\
  out (main Sample.atmost Sample.equals Sample.unsat Sample.now Sample.short_app) = [] /\
  val (main Sample.atmost Sample.equals Sample.unsat Sample.now Sample.short_app) =
  inr [(1, [])].
Proof. repeat split; vm_compute; reflexivity. Qed.

Example sample_sat_run :
  out (main Sample.atmost Sample.equals (Sample.sat_solve [1; -2; 5; 9; 13; 6; 20])
         Sample.now Sample.app) =
  [Banner Sample.now; NumDrivers 3; NumRoutes 2; SatYes;
   RouteLine 1 "Delft" "Gouda"; DriverLine 1 "Ann" 4; DriverLine 2 "Bob" 4;
   RouteLine 2 "Breda" "Assen"; DriverLine 1 "Ann" 4; DriverLine 1 "Ann" 3].
Proof. vm_compute. reflexivity. Qed.

Example sample_far_run :
  init Sample.drivers_far Sample.routes_far <> inl (KeyError 10) /\
  report Sample.now Sample.far_app = mkRes [] (inl (KeyError 10)) Sample.far_app.
Proof. split; [discriminate | vm_compute; reflexivity]. Qed.

(** * Further properties of the program *)

(** ** Loading the two files *)

Section LoadFacts.

Lemma dict_fold_get_other {X V} (key : X -> Z) (value : X -> V) (k : Z) (xs : list X) :
  (forall y, In y xs -> key y <> k) ->
  forall d : pydict V,
  dict_get k (fold_left (fun d x => dict_set (key x) (value x) d) xs d) = dict_get k d.
Proof.
  induction xs as [|x xs IH]; intros H d; simpl; [reflexivity|].
  rewrite IH by (intros y Hy; apply H; now right).
  rewrite dict_get_set. destruct (Z.eqb_spec k (key x)) as [->|Hne]; [|reflexivity].
  exfalso. apply (H x); [now left | reflexivity].
Qed.

Lemma dict_fold_keys_In {X V} (key : X -> Z) (value : X -> V) (k : Z) (xs : list X) :
  forall d : pydict V,
  In k (dict_keys (fold_left (fun d x => dict_set (key x) (value x) d) xs d)) <->
  In k (dict_keys d) \/ exists x, In x xs /\ key x = k.
Proof.
  induction xs as [|x xs IH]; intros d; simpl.
  - split; [auto | intros [H|(x & [] & _)]; exact H].
  - rewrite IH, dict_set_keys. split.
    + intros [H|(y & Hy & Hk)]; [|right; eauto].
      destruct (dict_get (key x) d); [now left|].
      apply List.in_app_or in H as [H|[<-|[]]]; [now left | right; eauto].
    + intros [H|(y & [<-|Hy] & Hk)]; [| |right; eauto].
      * left. destruct (dict_get (key x) d); [exact H | apply List.in_or_app; now left].
      * left. subst k. destruct (dict_get (key x) d) eqn:E.
        -- apply dict_get_keys. congruence.
        -- apply List.in_or_app. right. now left.
Qed.

(** X1: the two dict comprehensions of [parse] keep one entry per ID. The
    keys are the IDs that occur in the file, without repetition, and an ID
    that occurs several times carries the data of its last object. *)
Theorem comprehension_last_wins {X V} (key : X -> Z) (value : X -> V) (xs : list X) :
  NoDup (dict_keys (dict_of key value xs)) /\
  (forall k, In k (dict_keys (dict_of key value xs)) <-> exists x, In x xs /\ key x = k) /\
  (forall pre x post,
     xs = pre ++ x :: post -> (forall y, In y post -> key y <> key x) ->
     dict_get (key x) (dict_of key value xs) = Some (value x)).
Proof.
  split; [apply dict_of_NoDup|]. split.
  - intros k. unfold dict_of. rewrite dict_fold_keys_In. simpl. tauto.
  - intros pre x post -> Hpost. unfold dict_of.
    rewrite fold_left_app. simpl.
    rewrite dict_fold_get_other by exact Hpost.
    rewrite dict_get_set, Z.eqb_refl. reflexivity.
Qed.

Lemma comprehension_last_wins_witness :
  dict_get 1 (drivers_table
                [mkDriverObj 1 "Ann" 3 [10]; mkDriverObj 2 "Bob" 2 [10];
                 mkDriverObj 1 "Ann2" 4 [11]])
  = Some (mkDriver 1 "Ann2" 4 [11]).
Proof.
  refine (proj2 (proj2 (comprehension_last_wins jd_id
    (fun o => mkDriver (jd_id o) (jd_name o) (jd_exp o) (jd_routes o))
    [mkDriverObj 1 "Ann" 3 [10]; mkDriverObj 2 "Bob" 2 [10]; mkDriverObj 1 "Ann2" 4 [11]]))
    [mkDriverObj 1 "Ann" 3 [10]; mkDriverObj 2 "Bob" 2 [10]]
    (mkDriverObj 1 "Ann2" 4 [11]) [] eq_refl _).
  intros y [].
Defined.

Lemma fill_routes_none (did : Z) (rids : list Z) (ri ri' : pydict Route) (k : Z) :
  fill_routes did rids ri = inr ri' -> (dict_get k ri' = None <-> dict_get k ri = None).
Proof.
  intros H. rewrite (fill_routes_get _ _ _ _ H k). destruct (dict_get k ri); simpl; split; congruence.
Qed.

Lemma fill_drivers_total (di : pydict Driver) (dids : list Z) :
  (forall did, In did dids -> dict_get did di <> None) ->
  forall ri,
  (forall did d rid, In did dids -> dict_get did di = Some d -> In rid (d_routes d) ->
     dict_get rid ri <> None) ->
  exists ri', fill_drivers dids di ri = inr ri'.
Proof.
  induction dids as [|did rest IH]; simpl; intros Hd ri Hr; [eauto|].
  destruct (dict_get did di) as [d|] eqn:E; [|exfalso; exact (Hd did (or_introl eq_refl) E)].
  destruct (fill_routes_total did (d_routes d) ri) as [ri1 H1].
  { intros rid Hin. eapply Hr; eauto. }
  rewrite H1. apply IH; [intros x Hx; apply Hd; now right|].
  intros did' d' rid Hin Hg Hrid. rewrite (fill_routes_none _ _ _ _ rid H1).
  eapply Hr; eauto.
Qed.

(** X2: [parse] returns exactly when every route ID in the routes list of
    every driver of the drivers map is a key of the routes map; otherwise
    it raises [KeyError] on a route ID the routes file does not have, and
    it raises nothing else. *)
Theorem parse_returns_iff (ds : list driver_obj) (rs : list route_obj) :
  ((exists di ri, parse ds rs = inr (di, ri)) <->
   (forall did d rid, dict_get did (drivers_table ds) = Some d -> In rid (d_routes d) ->
      dict_get rid (routes_table rs) <> None)) /\
  (forall e, parse ds rs = inl e ->
     exists k, e = KeyError k /\ dict_get k (routes_table rs) = None /\
       exists did d, dict_get did (drivers_table ds) = Some d /\ In k (d_routes d)).
Proof.
  split; [split|].
  - intros (di & ri & Hp) did d rid Hg Hin Hnone.
    destruct (fill_drivers_fail (drivers_table ds) (dict_keys (drivers_table ds)))
      with (ri := routes_table rs) as (k & Hk & _).
    + intros x Hx. now apply dict_get_keys.
    + exists did, d, rid. repeat split; auto. apply dict_get_keys. congruence.
    + apply parse_inr in Hp as [-> Hp]. congruence.
  - intros H.
    destruct (fill_drivers_total (drivers_table ds) (dict_keys (drivers_table ds)))
      with (ri := routes_table rs) as [ri' Hf].
    + intros x Hx. now apply dict_get_keys.
    + intros did d rid _. apply H.
    + exists (drivers_table ds), ri'. unfold parse. now rewrite Hf.
  - intros e He. unfold parse in He.
    destruct (fill_drivers _ _ _) as [e'|ri'] eqn:Hf; [|discriminate]. injection He as ->.
    revert Hf. generalize (routes_table rs).
    assert (Hkeys : forall did, In did (dict_keys (drivers_table ds)) ->
              dict_get did (drivers_table ds) <> None) by (intros x Hx; now apply dict_get_keys).
    revert Hkeys. generalize (dict_keys (drivers_table ds)) as dids.
    induction dids as [|did rest IH]; simpl; intros Hkeys ri Hf; [discriminate|].
    destruct (dict_get did (drivers_table ds)) as [d|] eqn:E;
      [|exfalso; exact (Hkeys did (or_introl eq_refl) E)].
    destruct (fill_routes did (d_routes d) ri) as [e1|ri1] eqn:E1.
    + injection Hf as <-.
      assert (Hin : exists k, e1 = KeyError k /\ dict_get k ri = None /\ In k (d_routes d)).
      { clear -E1. revert ri E1. induction (d_routes d) as [|rid l IHl]; simpl; intros ri E1;
          [discriminate|].
        unfold append_driver in E1. destruct (dict_get rid ri) as [r|] eqn:Er.
        - destruct (IHl _ E1) as (k & -> & Hk & Hin). exists k. repeat split; auto.
          rewrite dict_get_set in Hk. destruct (Z.eqb k rid); [discriminate | exact Hk].
        - injection E1 as <-. exists rid. auto. }
      destruct Hin as (k & -> & Hk & Hin). exists k. eauto 8.
    + destruct (IH (fun x Hx => Hkeys x (or_intror Hx)) ri1 Hf) as (k & -> & Hk & Hex).
      exists k. repeat split; auto. now apply (fill_routes_none _ _ _ _ k E1).
Qed.

Lemma count_occ_appended (d did rid : Z) (rids : list Z) :
  count_occ Z.eq_dec (appended did rid rids) d =
  if Z.eqb d did then count_occ Z.eq_dec rids rid else 0%nat.
Proof.
  unfold appended. induction rids as [|x rids IH]; simpl.
  - now destruct (Z.eqb d did).
  - destruct (Z.eqb_spec rid x) as [->|Hne]; simpl.
    + rewrite IH.
      destruct (Z.eqb_spec d did) as [Hd|Hd]; destruct (Z.eq_dec did d);
        destruct (Z.eq_dec x x); congruence.
    + rewrite IH. destruct (Z.eq_dec x rid); [congruence | reflexivity].
Qed.

Lemma count_occ_inverse_of (di : pydict Driver) (rid d : Z) (dr : Driver) (dids : list Z) :
  NoDup dids -> In d dids -> dict_get d di = Some dr ->
  count_occ Z.eq_dec (inverse_of di rid dids) d = count_occ Z.eq_dec (d_routes dr) rid.
Proof.
  intros Hnd Hin Hg. unfold inverse_of.
  assert (Hout : forall l, ~ In d l ->
    count_occ Z.eq_dec (flat_map (fun did =>
      match dict_get did di with
      | Some dr0 => appended did rid (d_routes dr0)
      | None => []
      end) l) d = 0%nat).
  { induction l as [|x l IHl]; simpl; intros Hx; [reflexivity|].
    rewrite count_occ_app, IHl by tauto.
    destruct (dict_get x di); [|reflexivity].
    rewrite count_occ_appended. destruct (Z.eqb_spec d x); [exfalso; auto | reflexivity]. }
  induction dids as [|x dids IH]; simpl in *; [contradiction|].
  apply NoDup_cons in Hnd as [Hx Hnd]. rewrite count_occ_app.
  destruct Hin as [->|Hin].
  - rewrite Hg, count_occ_appended, Z.eqb_refl, Hout; [lia|].
    intros H. apply Hx. now apply list_elem_of_In.
  - rewrite (IH Hnd Hin).
    assert (Hne : d <> x) by (intros ->; apply Hx; now apply list_elem_of_In).
    destruct (dict_get x di); [|reflexivity].
    rewrite count_occ_appended. destruct (Z.eqb_spec d x); [contradiction | reflexivity].
Qed.

(** X3: after a successful [parse] the drivers list of route [rid] holds
    the drivers in the order of the drivers map, and holds a driver as many
    times as [rid] occurs in that driver's own routes list: a repeated
    route ID in the drivers file gives a repeated driver. *)
Theorem parse_drivers_multiplicity (ds : list driver_obj) (rs : list route_obj)
    (di : pydict Driver) (ri : pydict Route) (rid : Z) (r : Route) :
  parse ds rs = inr (di, ri) ->
  dict_get rid ri = Some r ->
  r_drivers r = inverse_of di rid (dict_keys di) /\
  forall d dr, dict_get d di = Some dr ->
    count_occ Z.eq_dec (r_drivers r) d = count_occ Z.eq_dec (d_routes dr) rid.
Proof.
  intros Hp Hr. pose proof Hp as Hp'. apply parse_inr in Hp' as [Hdi Hf].
  rewrite (fill_drivers_get _ _ _ _ Hf rid) in Hr.
  destruct (dict_get rid (routes_table rs)) as [r0|] eqn:E0; [|discriminate].
  injection Hr as <-.
  apply dict_of_get in E0 as (o & _ & _ & <-). simpl.
  split; [reflexivity|]. intros d dr Hg.
  apply count_occ_inverse_of; [|apply dict_get_keys; congruence | exact Hg].
  rewrite Hdi. apply dict_of_NoDup.
Qed.

Lemma parse_drivers_multiplicity_witness :
  r_drivers (mkRoute 10 "A" "B" [1; 2; 2]) =
    inverse_of [(1, mkDriver 1 "Ann" 3 [10]); (2, mkDriver 2 "Bob" 2 [10; 10])] 10 [1; 2] /\
  forall d dr,
    dict_get d [(1, mkDriver 1 "Ann" 3 [10]); (2, mkDriver 2 "Bob" 2 [10; 10])] = Some dr ->
    count_occ Z.eq_dec (r_drivers (mkRoute 10 "A" "B" [1; 2; 2])) d =
    count_occ Z.eq_dec (d_routes dr) 10.
Proof.
  exact (parse_drivers_multiplicity
           [mkDriverObj 1 "Ann" 3 [10]; mkDriverObj 2 "Bob" 2 [10; 10]]
           [mkRouteObj 10 "A" "B"]
           [(1, mkDriver 1 "Ann" 3 [10]); (2, mkDriver 2 "Bob" 2 [10; 10])]
           [(10, mkRoute 10 "A" "B" [1; 2; 2])] 10 (mkRoute 10 "A" "B" [1; 2; 2])
           eq_refl eq_refl).
Defined.

(** X4: a successful [parse] hands back the drivers map as loaded, and a
    routes map with the keys of the routes file in their order, where each
    route keeps the ID, start and end it was loaded with: the filling loops
    touch nothing but the drivers lists. *)
Theorem parse_keeps_loaded_data (ds : list driver_obj) (rs : list route_obj)
    (di : pydict Driver) (ri : pydict Route) :
  parse ds rs = inr (di, ri) ->
  di = drivers_table ds /\
  dict_keys ri = dict_keys (routes_table rs) /\
  forall rid r, dict_get rid ri = Some r ->
    exists o, In o rs /\ jr_id o = rid /\
      r_id r = rid /\ r_start r = jr_start o /\ r_end r = jr_end o /\
      dict_get rid (routes_table rs)
        = Some (mkRoute (jr_id o) (jr_start o) (jr_end o) []).
Proof.
  intros Hp. apply parse_inr in Hp as [-> Hf]. split; [reflexivity|]. split.
  - eapply fill_drivers_keys; eauto.
  - intros rid r Hr. rewrite (fill_drivers_get _ _ _ _ Hf rid) in Hr.
    destruct (dict_get rid (routes_table rs)) as [r0|] eqn:E0; [|discriminate].
    injection Hr as <-.
    apply dict_of_get in E0 as (o & Hin & <- & <-). exists o. simpl. auto 8.
Qed.

Lemma parse_keeps_loaded_data_witness :
  drivers_info Sample.app = drivers_table Sample.drivers_json /\
  dict_keys (routes_info Sample.app) = dict_keys (routes_table Sample.routes_json) /\
  forall rid r, dict_get rid (routes_info Sample.app) = Some r ->
    exists o, In o Sample.routes_json /\ jr_id o = rid /\
      r_id r = rid /\ r_start r = jr_start o /\ r_end r = jr_end o /\
      dict_get rid (routes_table Sample.routes_json)
        = Some (mkRoute (jr_id o) (jr_start o) (jr_end o) []).
Proof.
  exact (parse_keeps_loaded_data Sample.drivers_json Sample.routes_json
           (drivers_info Sample.app) (routes_info Sample.app) eq_refl).
Defined.

End LoadFacts.

(** ** The first three clause groups *)

Section GroupFacts.

Variable atmost : list Z -> Z -> formula * Z.
Variable equals : list Z -> Z -> formula * Z.

Abbreviation ext := (ext atmost equals).
Abbreviation CardEnc_atmost := (CardEnc_atmost atmost).
Abbreviation CardEnc_equals := (CardEnc_equals equals).
Abbreviation c1_for := (c1_for atmost).
Abbreviation c2_for := (c2_for atmost).
Abbreviation c3_for := (c3_for equals).
Abbreviation formulate := (formulate atmost equals).

Lemma ext_bound_all s s' ts vs :
  ext s s' -> Forall2 (bound (syms s)) ts vs -> Forall2 (bound (syms s')) ts vs.
Proof.
  intros Hx H. eapply List.Forall2_impl; [|exact H].
  intros t v Hb. eapply ext_bound; eauto.
Qed.

Lemma ext_encodes enc s s' ts f :
  ext s s' -> encodes enc (syms s) ts f -> encodes enc (syms s') ts f.
Proof.
  intros Hx (vs & top & Hb & ->). exists vs, top. split; [|reflexivity].
  eapply ext_bound_all; eauto.
Qed.

Lemma wp_level_vids (did rid : Z) s :
  eligible (drivers_info s) (routes_info s) did rid ->
  wp (forM range_4_0 (fun e => vid did rid e)) s
     (fun vs s' => ext s s' /\ Forall2 (bound (syms s')) (level_triples did rid) vs).
Proof.
  intros He. eapply wp_mono; [apply (wp_vids atmost equals did rid range_4_0 s He)|].
  intros vs s' [Hx Hall]. split; [exact Hx|].
  unfold level_triples. now apply Forall2_fmap_l.
Qed.

Lemma wp_c1_for_shape (did : Z) (dr : Driver) s :
  dict_get did (drivers_info s) = Some dr ->
  wp (c1_for did) s (fun fs s' => ext s s' /\
    Forall2 (fun rid f => encodes atmost (syms s') (level_triples did rid) f)
            (d_routes dr) fs).
Proof.
  intros Hg. unfold c1_for. apply wp_bind.
  eapply wp_routes_of; [exact Hg|].
  apply (wp_forM atmost equals
           (fun rid f s' => encodes atmost (syms s') (level_triples did rid) f)).
  - intros rid f s1 s2 H Hx. eapply ext_encodes; eauto.
  - intros rid s1 Hin Hx. apply wp_bind.
    eapply wp_mono; [apply wp_level_vids|].
    + left. exists dr. now rewrite (ext_drivers _ _ _ _ Hx).
    + intros lits s2 [Hx2 Hall]. eapply wp_mono; [apply wp_atmost|].
      intros f s3 [Hx3 ->]. split; [eapply ext_trans; eauto|].
      exists lits, (IDPool.top (syms s2)). split; [|reflexivity].
      eapply ext_bound_all; eauto.
Qed.

Lemma wp_c2_for_shape (did : Z) (dr : Driver) s :
  dict_get did (drivers_info s) = Some dr ->
  wp (c2_for did) s (fun f s' => ext s s' /\
    encodes atmost (syms s')
      (flat_map (fun rid => level_triples did rid) (d_routes dr)) f).
Proof.
  intros Hg. unfold c2_for. apply wp_bind, wp_bind.
  eapply wp_routes_of; [exact Hg|].
  eapply wp_mono;
    [apply (wp_forM_flat atmost equals
              (fun rid vs s' => Forall2 (bound (syms s')) (level_triples did rid) vs))|].
  - intros rid vs s1 s2 H Hx. eapply ext_bound_all; eauto.
  - intros rid s1 Hin Hx. apply wp_level_vids.
    left. exists dr. now rewrite (ext_drivers _ _ _ _ Hx).
  - intros lits s1 (Hx & yss & -> & Hall). eapply wp_mono; [apply wp_atmost|].
    intros f s2 [Hx2 ->]. split; [eapply ext_trans; eauto|].
    exists (concat yss), (IDPool.top (syms s1)). split; [|reflexivity].
    eapply ext_bound_all; [exact Hx2|]. now apply Forall2_flat_map_concat.
Qed.

Lemma wp_c3_for_shape (rid : Z) (rt : Route) s :
  dict_get rid (routes_info s) = Some rt ->
  wp (c3_for rid) s (fun fs s' => ext s s' /\
    Forall2 (fun e f =>
               encodes equals (syms s') (map (fun did => (did, rid, e)) (r_drivers rt)) f)
            range_4_0 fs).
Proof.
  intros Hg. unfold c3_for.
  apply (wp_forM atmost equals
           (fun e f s' =>
              encodes equals (syms s') (map (fun did => (did, rid, e)) (r_drivers rt)) f)).
  - intros e f s1 s2 H Hx. eapply ext_encodes; eauto.
  - intros e s1 _ Hx. apply wp_bind, wp_bind.
    eapply wp_drivers_of; [rewrite (ext_routes _ _ _ _ Hx); exact Hg|].
    eapply wp_mono;
      [apply (wp_forM atmost equals (fun did v s' => bound (syms s') (did, rid, e) v))|].
    + intros did v s2 s3 Hb Hx3. eapply ext_bound; eauto.
    + intros did s2 Hin Hx2. apply wp_vid. right. exists rt.
      now rewrite (ext_routes _ _ _ _ Hx2), (ext_routes _ _ _ _ Hx).
    + intros lits s2 [Hx2 Hall]. eapply wp_mono; [apply wp_equals|].
      intros f s3 [Hx3 ->]. split; [eapply ext_trans; eauto|].
      exists lits, (IDPool.top (syms s2)). split; [|reflexivity].
      eapply ext_bound_all; [exact Hx3|]. now apply Forall2_fmap_l.
Qed.

Lemma ext_chain s s1 s2 s3 s4 :
  ext s s1 -> ext s1 s2 -> ext s2 s3 -> ext s3 s4 ->
  ext s s4 /\ ext s1 s4 /\ ext s2 s4 /\ ext s3 s4.
Proof.
  intros H1 H2 H3 H4. repeat split;
    repeat (eapply ext_trans; [eassumption|]); try apply ext_refl; assumption.
Qed.

(** The first three groups of [formulate], bundle by bundle, against the
    pool it leaves behind. *)
Lemma formulate_shape s :
  wp formulate s (fun cs s' =>
    let '(c_1, c_2, c_3, _) := cs in
    Forall2 (fun pr f => encodes atmost (syms s') (level_triples (fst pr) (snd pr)) f)
            (c1_pairs (drivers_info s)) c_1 /\
    Forall2 (fun did f => encodes atmost (syms s') (c2_triples (drivers_info s) did) f)
            (dict_keys (drivers_info s)) c_2 /\
    Forall2 (fun slot f => encodes equals (syms s') (c3_triples (routes_info s) slot) f)
            (c3_slots (routes_info s)) c_3).
Proof.
  unfold formulate.
  (* first group *)
  apply wp_bind, wp_bind, wp_get.
  eapply wp_mono;
    [apply (wp_forM_flat atmost equals (fun did fs s' =>
       Forall2 (fun pr f => encodes atmost (syms s') (level_triples (fst pr) (snd pr)) f)
         (match dict_get did (drivers_info s) with
          | Some dr => map (fun rid => (did, rid)) (d_routes dr)
          | None => []
          end) fs))|].
  { intros did fs s1 s2 H Hx. eapply List.Forall2_impl; [|exact H].
    intros pr f Hf. eapply ext_encodes; eauto. }
  { intros did s1 Hin Hx. destruct (dict_key_get _ _ Hin) as [dr Hg].
    eapply wp_mono;
      [apply (wp_c1_for_shape did dr); rewrite (ext_drivers _ _ _ _ Hx); exact Hg|].
    intros fs s2 [Hx2 H]. split; [exact Hx2|]. rewrite Hg. now apply Forall2_fmap_l. }
  intros c_1 s1 (Hx1 & yss1 & -> & Hall1).
  assert (Hd1 : drivers_info s1 = drivers_info s) by apply (ext_drivers _ _ _ _ Hx1).
  assert (Hr1 : routes_info s1 = routes_info s) by apply (ext_routes _ _ _ _ Hx1).
  (* second group *)
  apply wp_bind, wp_bind, wp_get.
  eapply wp_mono;
    [apply (wp_forM atmost equals (fun did f s' =>
       encodes atmost (syms s') (c2_triples (drivers_info s) did) f))|].
  { intros did f s2 s3 H Hx. eapply ext_encodes; eauto. }
  { intros did s2 Hin Hx. destruct (dict_key_get _ _ Hin) as [dr Hg].
    eapply wp_mono;
      [apply (wp_c2_for_shape did dr); rewrite (ext_drivers _ _ _ _ Hx); exact Hg|].
    intros f s3 [Hx3 H]. split; [exact Hx3|].
    unfold c2_triples. rewrite <- Hd1, Hg. exact H. }
  intros c_2 s2 (Hx2 & Hall2).
  (* third group *)
  apply wp_bind, wp_bind, wp_get.
  eapply wp_mono;
    [apply (wp_forM_flat atmost equals (fun rid fs s' =>
       Forall2 (fun slot f => encodes equals (syms s') (c3_triples (routes_info s) slot) f)
         (map (fun e => (rid, e)) range_4_0) fs))|].
  { intros rid fs s3 s4 H Hx. eapply List.Forall2_impl; [|exact H].
    intros slot f Hf. eapply ext_encodes; eauto. }
  { intros rid s3 Hin Hx. destruct (dict_key_get _ _ Hin) as [rt Hg].
    eapply wp_mono;
      [apply (wp_c3_for_shape rid rt); rewrite (ext_routes _ _ _ _ Hx); exact Hg|].
    intros fs s4 [Hx4 H]. split; [exact Hx4|]. apply Forall2_fmap_l.
    eapply List.Forall2_impl; [|exact H]. intros e f Hf. cbn.
    rewrite (ext_routes _ _ _ _ Hx2), Hr1 in Hg. now rewrite Hg. }
  intros c_3 s3 (Hx3 & yss3 & -> & Hall3).
  (* fourth group *)
  apply wp_bind, wp_bind, wp_get.
  eapply wp_mono; [apply (wp_forM_flat atmost equals (fun _ _ _ => True))|].
  { auto. }
  { intros did s4 Hin Hx. destruct (dict_key_get _ _ Hin) as [dr Hg].
    eapply wp_mono;
      [apply (wp_c4_for atmost equals did dr); rewrite (ext_drivers _ _ _ _ Hx); exact Hg|].
    intros fs s5 [Hx5 _]. auto. }
  intros c_4 s4 (Hx4 & _).
  apply wp_bind, wp_set_problem, wp_ret. cbn [syms].
  destruct (ext_chain _ _ _ _ _ Hx1 Hx2 Hx3 Hx4) as (_ & H14 & H24 & H34).
  split; [|split].
  - unfold c1_pairs. apply Forall2_flat_map_concat.
    eapply List.Forall2_impl; [|exact Hall1].
    intros did fs H. eapply List.Forall2_impl; [|exact H].
    intros pr f Hf. exact (ext_encodes _ _ _ _ _ H14 Hf).
  - rewrite Hd1 in Hall2.
    eapply List.Forall2_impl; [|exact Hall2].
    intros did f Hf. exact (ext_encodes _ _ _ _ _ H24 Hf).
  - unfold c3_slots. apply Forall2_flat_map_concat.
    rewrite (ext_routes _ _ _ _ Hx2), Hr1 in Hall3.
    eapply List.Forall2_impl; [|exact Hall3].
    intros rid fs H. eapply List.Forall2_impl; [|exact H].
    intros slot f Hf. exact (ext_encodes _ _ _ _ _ H34 Hf).
Qed.

(** X5: the first group has one bundle per driver and route of the
    driver's list, in the order of the comprehension: what the at-most-one
    encoder answers for the variables of the pair at levels 4, 3, 2, 1. *)
Theorem first_group_shape s :
  exists c_1 c_2 c_3 c_4 s',
    formulate s = mkRes [] (inr (c_1, c_2, c_3, c_4)) s' /\
    Forall2 (fun pr f => encodes atmost (syms s') (level_triples (fst pr) (snd pr)) f)
            (c1_pairs (drivers_info s)) c_1.
Proof.
  destruct (formulate_shape s) as ([[[c_1 c_2] c_3] c_4] & s' & Hrun & H1 & _).
  exists c_1, c_2, c_3, c_4, s'. auto.
Qed.

(** X6: the second group has one bundle per driver of the drivers map, in
    its order: what the at-most-one encoder answers for the variables of
    all routes of the driver's list, each at levels 4, 3, 2, 1. *)
Theorem second_group_shape s :
  exists c_1 c_2 c_3 c_4 s',
    formulate s = mkRes [] (inr (c_1, c_2, c_3, c_4)) s' /\
    Forall2 (fun did f => encodes atmost (syms s') (c2_triples (drivers_info s) did) f)
            (dict_keys (drivers_info s)) c_2.
Proof.
  destruct (formulate_shape s) as ([[[c_1 c_2] c_3] c_4] & s' & Hrun & _ & H2 & _).
  exists c_1, c_2, c_3, c_4, s'. auto.
Qed.

(** X7: the third group has four bundles per route of the routes map, for
    the levels 4, 3, 2, 1: what the exactly-one encoder answers for the
    variables, at that route and level, of the drivers of the route's
    drivers list. A route without drivers gets the encoder's answer for no
    literals. *)
Theorem third_group_shape s :
  exists c_1 c_2 c_3 c_4 s',
    formulate s = mkRes [] (inr (c_1, c_2, c_3, c_4)) s' /\
    Forall2 (fun slot f => encodes equals (syms s') (c3_triples (routes_info s) slot) f)
            (c3_slots (routes_info s)) c_3 /\
    (forall rid rt e, dict_get rid (routes_info s) = Some rt -> r_drivers rt = [] ->
       In e range_4_0 -> exists top, In (fst (equals [] top)) c_3).
Proof.
  destruct (formulate_shape s) as ([[[c_1 c_2] c_3] c_4] & s' & Hrun & _ & _ & H3).
  exists c_1, c_2, c_3, c_4, s'. split; [exact Hrun|]. split; [exact H3|].
  intros rid rt e Hg Hnil He.
  assert (Hin : In (rid, e) (c3_slots (routes_info s))).
  { unfold c3_slots. apply List.in_flat_map. exists rid.
    split; [apply dict_get_keys; congruence|]. apply List.in_map_iff. eauto. }
  destruct (Forall2_In_l _ _ _ _ H3 Hin) as (f & Hf & vs & top & Hb & ->).
  simpl in Hb. rewrite Hg, Hnil in Hb. simpl in Hb.
  apply List.Forall2_length in Hb. destruct vs; [|discriminate]. eauto.
Qed.

(** X8: [formulate] never raises and prints nothing, whatever the object.
    It stores the four groups it returns in [problem], leaves the domain
    model, the solver and the model as they are, and every name and every
    integer the pool had registered is still registered the same way. *)
Theorem formulate_returns s :
  exists c_1 c_2 c_3 c_4 s',
    formulate s = mkRes [] (inr (c_1, c_2, c_3, c_4)) s' /\
    s' = mkFietSAT (drivers_info s) (routes_info s) (syms s') (solver s)
           [c_1; c_2; c_3; c_4] (model s) /\
    (forall n v, IDPool.obj2id (syms s) !! n = Some v ->
                 IDPool.obj2id (syms s') !! n = Some v) /\
    (forall v n, IDPool.id2obj (syms s) !! v = Some n ->
                 IDPool.id2obj (syms s') !! v = Some n).
Proof.
  destruct (formulate_spec atmost equals s)
    as ([[[c_1 c_2] c_3] c_4] & s' & Hrun & Hx & Hp & _).
  exists c_1, c_2, c_3, c_4, s'. split; [exact Hrun|].
  destruct Hx as (Hd & Hr & Hs & Hm & Hsteps). split; [|split].
  - destruct s'. simpl in *. congruence.
  - intros n v. eapply fsteps_obj2id; eauto.
  - intros v n. eapply fsteps_id2obj; eauto.
Qed.

Lemma Forall2_functional {A B} (P : A -> B -> Prop) (l : list A) (k1 k2 : list B) :
  (forall a b1 b2, P a b1 -> P a b2 -> b1 = b2) ->
  Forall2 P l k1 -> Forall2 P l k2 -> k1 = k2.
Proof.
  intros Hf H1. revert k2. induction H1 as [|a b l k1 Hab _ IH]; intros k2 H2.
  - now apply Forall2_nil_inv_l in H2.
  - apply Forall2_cons_inv_l in H2 as (b' & k2' & Hab' & H2 & ->).
    f_equal; [eapply Hf; eauto | now apply IH].
Qed.

(** X9: running [formulate] a second time on the object the first run left
    returns the very same fourth group: the variables of the triples are
    looked up, not minted again. *)
Theorem formulate_again_same_ceiling s :
  exists c_1 c_2 c_3 c_4 s' c_1' c_2' c_3' s'',
    formulate s = mkRes [] (inr (c_1, c_2, c_3, c_4)) s' /\
    formulate s' = mkRes [] (inr (c_1', c_2', c_3', c_4)) s''.
Proof.
  destruct (formulate_spec atmost equals s)
    as ([[[c_1 c_2] c_3] c_4] & s' & Hrun & Hx & _ & _ & H4).
  destruct (formulate_spec atmost equals s')
    as ([[[c_1' c_2'] c_3'] c_4'] & s'' & Hrun' & Hx' & _ & _ & H4').
  exists c_1, c_2, c_3, c_4, s', c_1', c_2', c_3', s''. split; [exact Hrun|].
  rewrite Hrun'. repeat f_equal.
  rewrite (ext_drivers _ _ _ _ Hx) in H4'.
  eapply (Forall2_functional _ _ _ _ _ H4').
  Unshelve.
  - eapply List.Forall2_impl; [|exact H4].
    intros t f (v & Hb & ->). exists v. split; [|reflexivity].
    eapply ext_bound; eauto.
  - intros [[d r] e] f1 f2 (v1 & Hb1 & ->) (v2 & Hb2 & ->). simpl in *. congruence.
Qed.

(** X10: when the encoder takes its auxiliary variables above the counter
    and the pool is well formed, the pool after [formulate] is well formed,
    every variable of a triple is a positive integer up to the counter, and
    no two triples share a variable, negative IDs included. *)
Theorem named_variables_distinct s :
  (forall lits top, top <= snd (atmost lits top)) ->
  (forall lits top, top <= snd (equals lits top)) ->
  IDPool.wf (syms s) ->
  exists cs s',
    formulate s = mkRes [] (inr cs) s' /\
    IDPool.wf (syms s') /\
    (forall t v, bound (syms s') t v -> 0 < v <= IDPool.top (syms s')) /\
    (forall t t' v, bound (syms s') t v -> bound (syms s') t' v -> t = t').
Proof.
  intros Ha He W.
  destruct (formulate_spec atmost equals s)
    as ([[[c_1 c_2] c_3] c_4] & s' & Hrun & Hx & _).
  exists (c_1, c_2, c_3, c_4), s'. split; [exact Hrun|].
  pose proof (ext_wf atmost equals Ha He _ _ Hx W) as W'.
  split; [exact W'|]. split.
  - intros [[d r] e] v Hb. exact (IDPool.wf_range _ W' _ _ Hb).
  - intros [[d r] e] [[d' r'] e'] v Hb Hb'. simpl in *.
    pose proof (PoolFacts.wf_inj _ _ _ _ W' Hb Hb') as Hn.
    apply PyFacts.var_name_inj in Hn as (-> & -> & ->). reflexivity.
Qed.

End GroupFacts.

Lemma named_variables_distinct_witness :
  exists cs s',
    formulate Sample.atmost Sample.equals Sample.app = mkRes [] (inr cs) s' /\
    IDPool.wf (syms s') /\
    (forall t v, bound (syms s') t v -> 0 < v <= IDPool.top (syms s')) /\
    (forall t t' v, bound (syms s') t v -> bound (syms s') t' v -> t = t').
Proof.
  apply (named_variables_distinct Sample.atmost Sample.equals Sample.app).
  - intros lits top. simpl. lia.
  - intros lits top. simpl. lia.
  - exact PoolFacts.wf_empty.
Defined.

(** ** Solving and reporting *)

Section OutcomeFacts.

Variable atmost : list Z -> Z -> formula * Z.
Variable equals : list Z -> Z -> formula * Z.
Variable sat_solve : formula -> option (list Z).
Variable now : string.

Abbreviation formulate := (formulate atmost equals).
Abbreviation solve := (solve sat_solve).
Abbreviation report := (report now).

(** X11: [solve] after [formulate] hands the engine the clauses the solver
    already held followed by all clauses of the four groups, flattened in
    the order of the groups; it returns [True] with the engine's model, or
    [False] with the empty model, prints nothing, raises nothing and leaves
    the pool, the problem and the domain model alone. *)
Theorem formulate_then_solve s :
  exists c_1 c_2 c_3 c_4 s1 s2 b,
    formulate s = mkRes [] (inr (c_1, c_2, c_3, c_4)) s1 /\
    solve s1 = mkRes [] (inr b) s2 /\
    solver s2 = solver s ++ concat c_1 ++ concat c_2 ++ concat c_3 ++ concat c_4 /\
    (b, model s2) = match sat_solve (solver s2) with
                    | Some m => (true, m)
                    | None => (false, [])
                    end /\
    syms s2 = syms s1 /\ problem s2 = [c_1; c_2; c_3; c_4] /\
    drivers_info s2 = drivers_info s /\ routes_info s2 = routes_info s.
Proof.
  destruct (formulate_spec atmost equals s)
    as ([[[c_1 c_2] c_3] c_4] & s1 & Hrun & Hx & Hp & _).
  destruct Hx as (Hd & Hr & Hs & Hm & _).
  pose proof (solve_run sat_solve s1) as Hsolve. cbv zeta in Hsolve.
  rewrite Hp, Hs, Hd, Hr in Hsolve. cbn [concat] in Hsolve.
  rewrite List.app_nil_r, !concat_app in Hsolve.
  destruct (sat_solve _) as [m|] eqn:E;
    eexists c_1, c_2, c_3, c_4, s1, _, _;
    (split; [exact Hrun|]); (split; [exact Hsolve|]); cbn;
    rewrite <- ?List.app_assoc; rewrite E; auto 8.
Qed.

(** X12: the solver object accumulates: a second [solve] feeds the clauses
    of [problem] to it once more, behind the ones of the first call. *)
Theorem solve_twice_appends_twice s :
  solver (st (solve (st (solve s)))) =
  (solver s ++ concat (concat (problem s))) ++ concat (concat (problem s)) /\
  problem (st (solve (st (solve s)))) = problem s.
Proof.
  rewrite (solve_run sat_solve s). cbv zeta.
  destruct (sat_solve _) as [m|]; cbn [st];
    rewrite solve_run; cbv zeta; cbn [solver problem];
    destruct (sat_solve _); cbn; auto.
Qed.

(** X13: [report] only reads: whatever it prints, returns or raises, the
    object it leaves behind is the object it was given, pool, solver,
    problem and model included. *)
Theorem report_reads_only s : st (report s) = s.
Proof.
  destruct (model s) as [|l m] eqn:Em.
  - now rewrite (report_nil now s Em).
  - rewrite (report_cons now s) by congruence. cbv zeta.
    destruct (val (foldM (model s) _ record_lit s)) as [e|sol]; [reflexivity|].
    cbn [st]. apply (routes_loop sol (dict_keys sol) s).
Qed.

Lemma pairs_at_set (sol : solution) (r rid : Z) (v : list (Z * Z)) :
  pairs_at (dict_set r v sol) rid = if Z.eqb rid r then v else pairs_at sol rid.
Proof. unfold pairs_at. rewrite dict_get_set. now destruct (Z.eqb rid r). Qed.

Lemma record_lit_recorded (sol sol' : solution) (lit : Z) s :
  val (record_lit sol lit s) = inr sol' ->
  forall rid, pairs_at sol' rid = pairs_at sol rid ++ recorded (syms s) rid [lit].
Proof.
  rewrite record_lit_val. unfold recorded, decoded. cbn [flat_map].
  destruct (0 <? lit); [|intros [= <-] rid; now rewrite !List.app_nil_r].
  destruct (IDPool.id2obj (syms s) !! lit) as [name|];
    [|intros [= <-] rid; now rewrite !List.app_nil_r].
  destruct (map Py.int (tail (split "_" name))) as [|[a|] [|[b|] [|[c|] [|]]]];
    try discriminate.
  destruct (dict_get b sol) as [pairs|] eqn:E; [|discriminate].
  intros [= <-] rid. rewrite pairs_at_set, List.app_nil_r.
  destruct (Z.eqb_spec b rid) as [->|Hne].
  - rewrite Z.eqb_refl. unfold pairs_at. now rewrite E.
  - destruct (Z.eqb_spec rid b); [congruence|]. now rewrite List.app_nil_r.
Qed.

Lemma decode_loop_recorded (m : list Z) s : forall sol sol' : solution,
  val (foldM m sol record_lit s) = inr sol' ->
  forall rid, pairs_at sol' rid = pairs_at sol rid ++ recorded (syms s) rid m.
Proof.
  induction m as [|lit m IH]; intros sol sol'.
  - intros [= <-] rid. unfold recorded. simpl. now rewrite List.app_nil_r.
  - rewrite foldM_record_cons.
    destruct (val (record_lit sol lit s)) as [e|sol1] eqn:E; [discriminate|].
    intros H rid. rewrite (IH _ _ H rid), (record_lit_recorded _ _ _ _ E rid).
    unfold recorded. cbn [flat_map]. now rewrite List.app_nil_r, List.app_assoc.
Qed.

(** X14: in the solution [report] returns, the list under a route holds one
    [(driver, level)] pair for each positive literal of the model whose
    variable is named for that route, in the order of the model; negative
    literals and variables without a name leave no trace. *)
Theorem report_records_model s (sol : solution) :
  val (report s) = inr sol ->
  forall rid, pairs_at sol rid = recorded (syms s) rid (model s).
Proof.
  intros Hv rid.
  assert (H0 : forall n, pairs_at (dict_of (fun rid => rid) (fun _ => @nil (Z * Z))
                            (range 1 (Z.of_nat n + 1))) rid = []).
  { intros n. unfold pairs_at.
    destruct (dict_get rid _) as [pairs|] eqn:E; [|reflexivity].
    apply dict_of_get in E as (x & _ & _ & <-). reflexivity. }
  destruct (model s) as [|l m] eqn:Em.
  - rewrite (report_nil now s Em) in Hv. injection Hv as <-. apply H0.
  - rewrite (report_cons now s) in Hv by congruence. cbv zeta in Hv. rewrite Em in Hv.
    destruct (val (foldM (l :: m) _ record_lit s)) as [e|sol'] eqn:E; [discriminate|].
    cbn [val] in Hv. destruct (val (forM_ _ _ s)); [discriminate|]. injection Hv as <-.
    rewrite (decode_loop_recorded _ _ _ _ E rid), H0. reflexivity.
Qed.


Lemma drivers_loop_error (ps : list (Z * Z)) s (e : exn) :
  val (forM_ ps (fun '(did, lv) =>
         d <- driver_info did ;; print (DriverLine did (d_name d) lv))%fiet s) = inl e ->
  exists k, e = KeyError k /\ dict_get k (drivers_info s) = None.
Proof.
  induction ps as [|[did lv] ps IH]; cbn [forM_]; [discriminate|].
  rewrite bind_eq, driver_line_run.
  destruct (dict_get did (drivers_info s)) as [d|] eqn:E; cbn [out val st].
  - exact IH.
  - intros [= <-]. eauto.
Qed.

Lemma routes_loop_error (sol : solution) (rids : list Z) s (e : exn) :
  val (forM_ rids (print_route sol) s) = inl e -> exists k, e = KeyError k.
Proof.
  induction rids as [|rid rids IH]; cbn [forM_]; [discriminate|].
  rewrite bind_eq, print_route_run.
  destruct (dict_get rid (routes_info s)) as [r|]; cbn [out val st];
    [|intros [= <-]; eauto].
  destruct (dict_get rid sol) as [pairs|]; cbn [out val st]; [|intros [= <-]; eauto].
  destruct (drivers_loop (sorted_desc snd pairs) s) as (Hq & _). cbv zeta in Hq.
  destruct (val (forM_ (sorted_desc snd pairs) _ s)) as [e'|[]] eqn:Hv; cbn [out val st].
  - intros [= <-]. apply drivers_loop_error in Hv as (k & -> & _). eauto.
  - rewrite Hq. exact IH.
Qed.

(** X15: when [report] raises, either nothing has been printed (the
    decoding loop raised, which is the only place a [ValueError] can come
    from), or the exception is a [KeyError] from looking up a route or a
    driver while printing, after the banner, the two counts and [SAT? Yes]
    are out. *)
Theorem report_failure_output s (e : exn) :
  val (report s) = inl e ->
  out (report s) = [] \/
  exists k rest,
    e = KeyError k /\
    out (report s) =
      Banner now :: NumDrivers (length (dict_keys (drivers_info s)))
        :: NumRoutes (length (dict_keys (routes_info s))) :: SatYes :: rest.
Proof.
  destruct (model s) as [|l m] eqn:Em.
  - rewrite (report_nil now s Em). auto.
  - rewrite (report_cons now s) by congruence. cbv zeta.
    destruct (val (foldM (model s) _ record_lit s)) as [e'|sol]; [auto|].
    cbn [out val].
    destruct (val (forM_ (dict_keys sol) (print_route sol) s)) as [e'|u] eqn:Hv;
      [|discriminate].
    intros [= <-]. right.
    destruct (routes_loop_error _ _ _ _ Hv) as [k ->]. eauto.
Qed.

(** X16: a report that returns on a non-empty model prints one route line
    per key of the solution, for the keys [1, 2, .., n] in this order,
    whatever the order of the routes in the routes file. *)
Theorem report_route_lines_in_key_order s (sol : solution) :
  val (report s) = inr sol -> model s <> [] ->
  map fst (blocks (out (report s))) =
  range 1 (Z.of_nat (length (dict_keys (routes_info s))) + 1).
Proof.
  intros Hv Hm. revert Hv. rewrite (report_cons now s Hm). cbv zeta.
  destruct (val (foldM (model s) _ record_lit s)) as [e|sol'] eqn:E; [discriminate|].
  cbn [out val]. rewrite blocks_report_header.
  destruct (routes_loop sol' (dict_keys sol') s) as (_ & _ & bs & Hbs & _ & Hmap).
  cbv zeta in Hbs, Hmap. unfold blocks. rewrite Hbs. cbn [snd].
  destruct (val (forM_ (dict_keys sol') (print_route sol') s)) as [e|[]]; [discriminate|].
  intros _. rewrite (Hmap eq_refl), List.map_map. cbn [fst]. rewrite List.map_id.
  rewrite (decode_loop_keys _ _ _ _ E). apply solution0_keys.
Qed.

End OutcomeFacts.

Lemma report_records_model_witness :
  val (report Sample.now Sample.near_app) = inr [(1, [(1, 4)])] /\
  pairs_at [(1, [(1, 4)])] 1
  = recorded (syms Sample.near_app) 1 (model Sample.near_app).
Proof.
  split; [reflexivity|].
  exact (report_records_model Sample.now Sample.near_app [(1, [(1, 4)])] eq_refl 1).
Defined.

Lemma report_failure_output_witness :
  out (report Sample.now Sample.far_app) = [] \/
  exists k rest,
    KeyError 10 = KeyError k /\
    out (report Sample.now Sample.far_app) =
      Banner Sample.now :: NumDrivers (length (dict_keys (drivers_info Sample.far_app)))
        :: NumRoutes (length (dict_keys (routes_info Sample.far_app))) :: SatYes :: rest.
Proof.
  exact (report_failure_output Sample.now Sample.far_app (KeyError 10) eq_refl).
Defined.

Lemma report_route_lines_in_key_order_witness :
  map fst (blocks (out (report Sample.now Sample.near_app))) =
  range 1 (Z.of_nat (length (dict_keys (routes_info Sample.near_app))) + 1).
Proof.
  apply (report_route_lines_in_key_order Sample.now Sample.near_app [(1, [(1, 4)])] eq_refl).
  discriminate.
Defined.
